(** * tool-types: the type-level utilities of [source/index.d.ts]

    The program is a set of TypeScript type aliases.  Each alias is a
    function from types to types, evaluated by the type checker.  The
    embedding is shallow: a TypeScript type is a value of [ty], the
    checker's operators ([keyof], indexed access, mapped types, conditional
    types, intersection) are Rocq functions on [ty], and every alias of the
    source is a Rocq definition that composes them the way its right-hand
    side does.

    Conventions of the host that the model fixes:
    - the compiler's default options: without [strictNullChecks], reading a
      property type [T[P]] gives the declared type, without [undefined] (the
      [DeepRequired] example of the source needs it); without
      [strictFunctionTypes], parameters are compared both ways;
    - a union is a list of alternatives without [never], without nested
      unions and without repetition; its order is not observable, so unions
      are compared as sets;
    - an intersection of two object shapes is represented by the shape the
      checker resolves for it (its members), so the statements on an
      intersection are statements on its members: [Equal], which in the
      checker tells an intersection from the flat shape, is not applied to
      the result of an intersection below.  For a member of both shapes, compilers up to 4.4 make it
      read-only when one constituent declares it read-only, later compilers
      when both do; the model takes the former, which the [ReadOnlyByKeys]
      example of the source needs.  The two rules agree where the two
      markers agree; but for that example, nothing below rests on a case
      where they differ. *)

From Stdlib Require Import List String Bool Arith Lia Permutation.
Import ListNotations.
Open Scope string_scope.
Open Scope list_scope.

(** ** Types *)

(** A property of an object shape: its type and its two modifiers. *)
Record prop (A : Type) : Type := mkProp
  { ptype : A; optional : bool; readonly : bool }.
Arguments mkProp {A} _ _ _.
Arguments ptype {A} _.
Arguments optional {A} _.
Arguments readonly {A} _.

#[local] Unset Elimination Schemes.

Inductive ty : Type :=
| TAny
| TUnknown
| TNever
| TString
| TNumber
| TBoolean
| TObjectKw                                   (* the keyword type [object] *)
| TStrLit (s : string)                        (* 'a' *)
| TBoolLit (b : bool)                         (* true, false *)
| TObj (props : list (string * prop ty))      (* { k: t; k?: t; readonly k: t } *)
| TArr (ro : bool) (elem : ty)                (* t[], readonly t[] *)
| TTuple (ro : bool) (elems : list (ty * bool)) (* [t, u?]; the flag is [?] *)
| TFun (params : list ty) (ret : ty)          (* (x: t) => u; required parameters *)
| TPromise (res : ty)                         (* Promise<t> *)
| TUnion (alts : list ty)                     (* t | u *)
| TInter (l r : ty).                          (* t & u, when not resolved *)

#[local] Set Elimination Schemes.

(** The induction principle that reaches through the nested lists. *)
Section ty_induction.
Variable P : ty -> Prop.
Hypothesis HAny : P TAny.
Hypothesis HUnknown : P TUnknown.
Hypothesis HNever : P TNever.
Hypothesis HString : P TString.
Hypothesis HNumber : P TNumber.
Hypothesis HBoolean : P TBoolean.
Hypothesis HObjectKw : P TObjectKw.
Hypothesis HStrLit : forall s, P (TStrLit s).
Hypothesis HBoolLit : forall b, P (TBoolLit b).
Hypothesis HObj : forall ps, Forall (fun kp => P (ptype (snd kp))) ps -> P (TObj ps).
Hypothesis HArr : forall ro e, P e -> P (TArr ro e).
Hypothesis HTuple : forall ro es, Forall (fun eo => P (fst eo)) es -> P (TTuple ro es).
Hypothesis HFun : forall ps r, Forall P ps -> P r -> P (TFun ps r).
Hypothesis HPromise : forall r, P r -> P (TPromise r).
Hypothesis HUnion : forall alts, Forall P alts -> P (TUnion alts).
Hypothesis HInter : forall l r, P l -> P r -> P (TInter l r).

Fixpoint ty_ind_nested (t : ty) : P t :=
  match t with
  | TAny => HAny
  | TUnknown => HUnknown
  | TNever => HNever
  | TString => HString
  | TNumber => HNumber
  | TBoolean => HBoolean
  | TObjectKw => HObjectKw
  | TStrLit s => HStrLit s
  | TBoolLit b => HBoolLit b
  | TObj ps =>
      HObj ps
        ((fix go (l : list (string * prop ty)) :
            Forall (fun kp => P (ptype (snd kp))) l :=
            match l with
            | [] => Forall_nil _
            | kp :: l' => Forall_cons kp (ty_ind_nested (ptype (snd kp))) (go l')
            end) ps)
  | TArr ro e => HArr ro e (ty_ind_nested e)
  | TTuple ro es =>
      HTuple ro es
        ((fix go (l : list (ty * bool)) : Forall (fun eo => P (fst eo)) l :=
            match l with
            | [] => Forall_nil _
            | eo :: l' => Forall_cons eo (ty_ind_nested (fst eo)) (go l')
            end) es)
  | TFun ps r =>
      HFun ps r
        ((fix go (l : list ty) : Forall P l :=
            match l with
            | [] => Forall_nil _
            | x :: l' => Forall_cons x (ty_ind_nested x) (go l')
            end) ps)
        (ty_ind_nested r)
  | TPromise r => HPromise r (ty_ind_nested r)
  | TUnion alts =>
      HUnion alts
        ((fix go (l : list ty) : Forall P l :=
            match l with
            | [] => Forall_nil _
            | x :: l' => Forall_cons x (ty_ind_nested x) (go l')
            end) alts)
  | TInter l r => HInter l r (ty_ind_nested l) (ty_ind_nested r)
  end.
End ty_induction.

(** ** Type identity

    The identity relation of the checker: the same structure, with the same
    modifiers on every property; the order of properties and of union
    alternatives does not count. *)

Fixpoint all2 {A B} (f : A -> B -> bool) (l : list A) (m : list B) : bool :=
  match l, m with
  | [], [] => true
  | x :: l', y :: m' => f x y && all2 f l' m'
  | _, _ => false
  end.

Fixpoint identical (s t : ty) {struct s} : bool :=
  match s, t with
  | TAny, TAny | TUnknown, TUnknown | TNever, TNever | TString, TString
  | TNumber, TNumber | TBoolean, TBoolean | TObjectKw, TObjectKw => true
  | TStrLit a, TStrLit b => String.eqb a b
  | TBoolLit a, TBoolLit b => Bool.eqb a b
  | TObj ps, TObj qs =>
      let same (kp kq : string * prop ty) :=
        String.eqb (fst kp) (fst kq)
        && Bool.eqb (optional (snd kp)) (optional (snd kq))
        && Bool.eqb (readonly (snd kp)) (readonly (snd kq))
        && identical (ptype (snd kp)) (ptype (snd kq)) in
      Nat.eqb (List.length ps) (List.length qs)
      && forallb (fun kp => existsb (fun kq => same kp kq) qs) ps
      && forallb (fun kq => existsb (fun kp => same kp kq) ps) qs
  | TArr r1 e1, TArr r2 e2 => Bool.eqb r1 r2 && identical e1 e2
  | TTuple r1 es1, TTuple r2 es2 =>
      Bool.eqb r1 r2
      && all2 (fun a b => Bool.eqb (snd a) (snd b) && identical (fst a) (fst b)) es1 es2
  | TFun ps1 r1, TFun ps2 r2 => all2 identical ps1 ps2 && identical r1 r2
  | TPromise a, TPromise b => identical a b
  | TUnion xs, TUnion ys =>
      forallb (fun x => existsb (fun y => identical x y) ys) xs
      && forallb (fun y => existsb (fun x => identical x y) xs) ys
  | TInter a1 b1, TInter a2 b2 => identical a1 a2 && identical b1 b2
  | _, _ => false
  end.

(** ** Unions *)

(** The alternatives of a type: [never] is the empty union. *)
Fixpoint members (t : ty) : list ty :=
  match t with
  | TNever => []
  | TUnion alts => flat_map members alts
  | _ => [t]
  end.

Definition is_any (t : ty) : bool := match t with TAny => true | _ => false end.
Definition is_unknown (t : ty) : bool := match t with TUnknown => true | _ => false end.
Definition is_string (t : ty) : bool := match t with TString => true | _ => false end.
Definition is_boolean (t : ty) : bool := match t with TBoolean => true | _ => false end.

(** A literal type is absorbed by its primitive type when both are present. *)
Definition absorbed (l : list ty) (t : ty) : bool :=
  match t with
  | TStrLit _ => existsb is_string l
  | TBoolLit _ => existsb is_boolean l
  | _ => false
  end.

(** Keeps the first occurrence of every alternative. *)
Fixpoint nub_into (acc l : list ty) : list ty :=
  match l with
  | [] => acc
  | x :: l' =>
      if existsb (identical x) acc then nub_into acc l'
      else nub_into (acc ++ [x]) l'
  end.

Definition nub (l : list ty) : list ty := nub_into [] l.

(** The union of a list of types, in the checker's normal form.  [boolean]
    is a primitive type of its own here: [true | false] is not joined into
    it. *)
Definition Union (ts : list ty) : ty :=
  let flat := flat_map members ts in
  if existsb is_any flat then TAny
  else if existsb is_unknown flat then TUnknown
  else match nub (filter (fun t => negb (absorbed flat t)) flat) with
       | [] => TNever
       | [t] => t
       | l => TUnion l
       end.

(** ** Object shapes: properties, [keyof], indexed access *)

Definition lookup (k : string) (ps : list (string * prop ty)) : option (prop ty) :=
  option_map snd (find (fun kp => String.eqb (fst kp) k) ps).

Definition has_key (k : string) (ps : list (string * prop ty)) : bool :=
  existsb (fun kp => String.eqb (fst kp) k) ps.

Definition keys (ps : list (string * prop ty)) : list string := map fst ps.

(** The declared properties of a type.  The members that the host library
    gives to arrays, functions and primitives are not part of the model. *)
Definition props_of (t : ty) : list (string * prop ty) :=
  match t with
  | TObj ps => ps
  | _ => []
  end.

(** [keyof T]: the union of the property names of [T], for [T] an object
    shape, an array, a tuple or [any], the types the utilities take.  The
    keys common to the alternatives of a union of shapes are not computed:
    the result is [never] there. *)
Definition keyof (t : ty) : ty :=
  match t with
  | TAny => Union [TString; TNumber]
  | TArr _ _ | TTuple _ _ => TNumber
  | _ => Union (map (fun kp => TStrLit (fst kp)) (props_of t))
  end.

(** [T[K]] for one key.  A key that [T] does not declare is an error of the
    program, not a type; the model gives [never] for it. *)
Definition index1 (t k : ty) : ty :=
  match t, k with
  | TAny, _ => TAny
  | TObj ps, TStrLit s =>
      match lookup s ps with
      | Some p => ptype p
      | None => TNever
      end
  | TArr _ e, TNumber => e
  | TTuple _ es, TNumber => Union (map fst es)
  | _, _ => TNever
  end.

(** [T[K]]: the property type for a single key, the union of the property
    types over the alternatives of a union of keys. *)
Definition index (t k : ty) : ty :=
  match k with
  | TNever => TNever
  | TUnion _ => Union (map (index1 t) (members k))
  | _ => index1 t k
  end.

(** ** Assignability *)

Fixpoint size (t : ty) : nat :=
  match t with
  | TObj ps => S (list_sum (map (fun kp => size (ptype (snd kp))) ps))
  | TArr _ e => S (size e)
  | TTuple _ es => S (list_sum (map (fun eo => size (fst eo)) es))
  | TFun ps r => S (list_sum (map size ps) + size r)
  | TPromise r => S (size r)
  | TUnion alts => S (list_sum (map size alts))
  | TInter l r => S (size l + size r)
  | _ => 1
  end.

(** Tuple elements, position by position: the source may stop early where
    the target's remaining elements are optional. *)
Fixpoint tuple_rel (rel : ty -> ty -> bool) (es1 es2 : list (ty * bool)) : bool :=
  match es1, es2 with
  | [], rest => forallb snd rest
  | _ :: _, [] => false
  | a :: es1', b :: es2' =>
      (negb (snd a) || snd b) && rel (fst a) (fst b) && tuple_rel rel es1' es2'
  end.

(** Parameters, position by position; all are required parameters, a
    function type with optional or rest parameters is not part of the model.
    A source with fewer parameters is accepted, one with more is not; each
    pair is compared both ways (parameter bivariance, the default). *)
Fixpoint params_rel (rel : ty -> ty -> bool) (ps1 ps2 : list ty) : bool :=
  match ps1, ps2 with
  | [], _ => true
  | _ :: _, [] => false
  | a :: ps1', b :: ps2' => (rel a b || rel b a) && params_rel rel ps1' ps2'
  end.

(** One step of the assignability relation, [rel] deciding the components.
    A type is assignable to itself; otherwise the rule is chosen by the two
    shapes. *)
Definition assign_step (rel : ty -> ty -> bool) (s t : ty) : bool :=
  if identical s t then true else
  match s, t with
  | _, TAny | _, TUnknown => true
  | TNever, _ => true
  | TAny, TNever => false
  | TAny, _ => true
  | TUnion alts, _ => forallb (fun a => rel a t) alts
  | _, TUnion alts => existsb (fun b => rel s b) alts
  | _, TInter a b => rel s a && rel s b
  | TInter a b, _ => rel a t || rel b t
  | TString, TString | TNumber, TNumber | TBoolean, TBoolean
  | TObjectKw, TObjectKw => true
  | TStrLit a, TStrLit b => String.eqb a b
  | TStrLit _, TString => true
  | TBoolLit a, TBoolLit b => Bool.eqb a b
  | TBoolLit _, TBoolean => true
  | (TObj _ | TArr _ _ | TTuple _ _ | TFun _ _ | TPromise _), TObjectKw => true
  | (TObj _ | TArr _ _ | TTuple _ _ | TFun _ _ | TPromise _ | TObjectKw
     | TString | TNumber | TBoolean | TStrLit _ | TBoolLit _), TObj qs =>
      forallb
        (fun kq =>
           match lookup (fst kq) (props_of s) with
           | Some p =>
               (negb (optional p) || optional (snd kq))
               && rel (ptype p) (ptype (snd kq))
           | None => optional (snd kq)
           end) qs
  | TArr r1 e1, TArr r2 e2 => (r2 || negb r1) && rel e1 e2
  | TTuple r1 es, TArr r2 e2 =>
      (r2 || negb r1) && forallb (fun eo => rel (fst eo) e2) es
  | TTuple r1 es1, TTuple r2 es2 => (r2 || negb r1) && tuple_rel rel es1 es2
  | TFun ps1 r1, TFun ps2 r2 => params_rel rel ps1 ps2 && rel r1 r2
  | TPromise a, TPromise b => rel a b
  | _, _ => false
  end.

(** [assignable_fuel n s t]: [s] is assignable to [t].  Every recursive call
    is on smaller types, so [size t + size s] steps are enough. *)
Fixpoint assignable_fuel (n : nat) (s t : ty) {struct n} : bool :=
  match n with
  | 0 => false
  | S n' => assign_step (assignable_fuel n') s t
  end.

Definition assignable (s t : ty) : bool := assignable_fuel (size t + size s) s t.

(** ** Conditional types *)

(** [C extends E ? X : Y] for one alternative [C].  With [any] as the checked
    type the result is the union of both branches. *)
Definition cond (c e : ty) (x y : ty) : ty :=
  match c with
  | TAny => if is_any e || is_unknown e then x else Union [x; y]
  | _ => if assignable c e then x else y
  end.

(** A conditional type whose checked type is a bare type parameter is
    distributed over the alternatives of the argument. *)
Definition distribute (f : ty -> ty) (t : ty) : ty := Union (map f (members t)).

(** lib: [type Extract<T, U> = T extends U ? T : never] *)
Definition Extract (T U : ty) : ty := distribute (fun t => cond t U t TNever) T.

(** lib: [type Exclude<T, U> = T extends U ? never : T] *)
Definition Exclude (T U : ty) : ty := distribute (fun t => cond t U TNever t) T.

(** ** Mapped types *)

(** A modifier of a mapped type: absent, added ([readonly], [?]) or removed
    ([-readonly], [-?]). *)
Inductive modifier : Type := Keep | Add | Remove.

Definition apply_mod (m : modifier) (b : bool) : bool :=
  match m with
  | Keep => b
  | Add => true
  | Remove => false
  end.

Fixpoint mapi {A B} (f : nat -> A -> B) (i : nat) (l : list A) : list B :=
  match l with
  | [] => []
  | x :: l' => f i x :: mapi f (S i) l'
  end.

(** The key of the [i]-th element of a tuple: '0', '1', ... *)
Fixpoint digits (fuel n : nat) (acc : string) : string :=
  match fuel with
  | 0 => acc
  | S fuel' =>
      let acc' := String (Ascii.ascii_of_nat (48 + n mod 10)) acc in
      if Nat.eqb (n / 10) 0 then acc' else digits fuel' (n / 10) acc'
  end.

Definition tuple_key (i : nat) : ty := TStrLit (digits (S i) i "").

(** [{ ro [P in keyof T] opt : template(P, T[P]) }] instantiated at [T]: a
    homomorphic mapped type.  The template receives the key and the type of
    the property.  Over an object shape it maps every property and adjusts the
    modifiers; over an array or a tuple it maps the elements; over a union it
    is distributed; a primitive, and the keyword type [object], is left as
    it is; a function type has no property, so the result is the empty
    shape, and so it is for an intersection that is not resolved to a shape.
    A [Promise] instance is left as it is: its members come from the host
    library and are not modelled, so no statement below is about a mapped
    [Promise]. *)
Fixpoint mapped_keyof (ro opt : modifier) (template : ty -> ty -> ty) (T : ty)
  {struct T} : ty :=
  match T with
  | TObj ps =>
      TObj (map (fun kp =>
                   (fst kp,
                    mkProp (template (TStrLit (fst kp)) (ptype (snd kp)))
                           (apply_mod opt (optional (snd kp)))
                           (apply_mod ro (readonly (snd kp))))) ps)
  | TArr r e => TArr (apply_mod ro r) (template TNumber e)
  | TTuple r es =>
      TTuple (apply_mod ro r)
             (mapi (fun i eo => (template (tuple_key i) (fst eo), apply_mod opt (snd eo))) 0 es)
  | TFun _ _ => TObj []
  | TUnion alts => Union (map (mapped_keyof ro opt template) alts)
  | TInter _ _ => TObj []
  | _ => T
  end.

(** [{ ro [P in K] opt : template(P) }] where [K extends keyof T]: the mapped
    type takes its modifiers from [T].  A key that [T] does not declare
    breaks the bound; its property starts required and mutable. *)
Definition mapped_in (K T : ty) (ro opt : modifier) (template : ty -> ty) : ty :=
  TObj (flat_map
          (fun k =>
             match k with
             | TStrLit s =>
                 match lookup s (props_of T) with
                 | Some p =>
                     [(s, mkProp (template k)
                                 (apply_mod opt (optional p))
                                 (apply_mod ro (readonly p)))]
                 | None => [(s, mkProp (template k)
                                       (apply_mod opt false) (apply_mod ro false))]
                 end
             | _ => []
             end) (members K)).

(** lib: [type Pick<T, K extends keyof T> = { [P in K]: T[P] }] *)
Definition Pick (T K : ty) : ty := mapped_in K T Keep Keep (fun P => index T P).

(** lib: [type Omit<T, K> = Pick<T, Exclude<keyof T, K>>] *)
Definition Omit (T K : ty) : ty := Pick T (Exclude (keyof T) K).

(** lib: [type Required<T> = { [P in keyof T]-?: T[P] }] *)
Definition Required (T : ty) : ty := mapped_keyof Keep Remove (fun _ v => v) T.

(** lib: [type Partial<T> = { [P in keyof T]?: T[P] }] *)
Definition Partial (T : ty) : ty := mapped_keyof Keep Add (fun _ v => v) T.

(** ** Intersections *)

(** [a & b] for one alternative [b].  Two object shapes are merged: a
    property of both is optional when it is optional in both, read-only when
    it is read-only in one of them (the rule of compilers up to 4.4, see the
    conventions above), and has the intersection of the two types. *)
Fixpoint inter1 (a b : ty) {struct a} : ty :=
  match a, b with
  | TUnion alts, _ => Union (map (fun x => inter1 x b) alts)
  | TObj ps, TObj qs =>
      TObj (map (fun kp =>
                   match lookup (fst kp) qs with
                   | Some q =>
                       (fst kp,
                        mkProp (Union (map (fun y => inter1 (ptype (snd kp)) y)
                                           (members (ptype q))))
                               (optional (snd kp) && optional q)
                               (readonly (snd kp) || readonly q))
                   | None => kp
                   end) ps
            ++ filter (fun kq => negb (has_key (fst kq) ps)) qs)
  | _, _ =>
      if identical a b then a
      else match a, b with
           | TNever, _ | _, TNever => TNever
           | TAny, _ | _, TAny => TAny
           | TUnknown, x | x, TUnknown => x
           | _, _ => TInter a b
           end
  end.

Definition Intersection (a b : ty) : ty := Union (map (inter1 a) (members b)).

(** ** Conditional types with [infer] *)

(** [C extends E<infer U> ? X(U) : Y] for one alternative [C]: [infer] gives
    the candidate for [U] read off [C] ([unknown] when there is none), and the
    true branch is taken when [C] is assignable to the pattern at that [U].
    The result names the branch: [Some u] for the true branch with [U := u],
    [None] for the false branch. *)
Definition match_infer (c : ty) (infer : ty -> option ty) (pattern : ty -> ty)
  : option ty :=
  let u := match infer c with Some u => u | None => TUnknown end in
  if assignable c (pattern u) then Some u else None.

Definition cond_infer (c : ty) (infer : ty -> option ty) (pattern : ty -> ty)
  (x : ty -> ty) (y : ty) : ty :=
  match c with
  | TAny => Union [x TUnknown; y]
  | _ => match match_infer c infer pattern with
         | Some u => x u
         | None => y
         end
  end.

(** The candidate for [U] in [Array<infer U>]: the element type of an array,
    the union of the element types of a tuple; an intersection is searched
    for a constituent that has one. *)
Fixpoint infer_elem (t : ty) : option ty :=
  match t with
  | TArr _ e => Some e
  | TTuple _ es => Some (Union (map fst es))
  | TInter a b =>
      match infer_elem a with
      | Some u => Some u
      | None => infer_elem b
      end
  | _ => None
  end.

(** The payloads of the [Promise] types found in a type, through unions and
    intersections. *)
Fixpoint payloads (r : ty) : list ty :=
  match r with
  | TPromise x => [x]
  | TUnion alts => flat_map payloads alts
  | TInter a b => payloads a ++ payloads b
  | _ => []
  end.

(** The candidate for [U] in [(args: any[]) => Promise<infer U>]. *)
Definition infer_resolved (t : ty) : option ty :=
  match t with
  | TFun _ r =>
      match payloads r with
      | [] => None
      | xs => Some (Union xs)
      end
  | _ => None
  end.

(** ** The utilities of [source/index.d.ts] *)

Definition Intersect (T U : ty) : ty := Pick T (Extract (keyof T) (keyof U)).

Definition Except (T U : ty) : ty := Pick T (Exclude (keyof T) (keyof U)).

Definition UnionOmit (T U : ty) : ty := Intersection T (Omit T (keyof U)).

Definition TupleUnion (T : ty) : ty :=
  distribute
    (fun t => cond_infer t infer_elem (fun U => TArr false U) (fun U => U) TNever) T.


Definition RequireAtLeastOneByKeys (T Keys : ty) : ty :=
  Intersection
    (Pick T (Exclude (keyof T) Keys))
    (index
       (mapped_in Keys T Keep Remove
          (fun K =>
             Intersection (Required (Pick T K))
                          (Partial (Pick T (Exclude Keys K)))))
       Keys).

Definition Weaken (T U : ty) : ty :=
  mapped_keyof Keep Keep (fun P v => distribute (fun p => cond p U TAny v) P) T.


Definition Promisify (T : ty) : ty :=
  distribute
    (fun t =>
       cond_infer t infer_resolved
         (fun U => TFun [TArr false TAny] (TPromise U)) (fun U => U) TNever) T.

Fixpoint DeepPartial (T : ty) : ty :=
  mapped_keyof Keep Add (fun _ v => cond v TObjectKw (DeepPartial v) v) T.

Fixpoint DeepRequired (T : ty) : ty :=
  mapped_keyof Keep Remove (fun _ v => cond v TObjectKw (DeepRequired v) v) T.

Fixpoint DeepReadOnly (T : ty) : ty :=
  mapped_keyof Add Keep (fun _ v => cond v TObjectKw (DeepReadOnly v) v) T.

Fixpoint DeepMutable (T : ty) : ty :=
  mapped_keyof Remove Keep (fun _ v => cond v TObjectKw (DeepMutable v) v) T.

Definition RequiredByKeys (T U : ty) : ty :=
  Intersection T (mapped_in U T Keep Remove (fun P => index T P)).

Definition PartialByKeys (T U : ty) : ty :=
  Intersection T (mapped_in U T Keep Add (fun P => index T P)).

Definition ReadOnlyByKeys (T U : ty) : ty :=
  Intersection T (mapped_in U T Add Keep (fun P => index T P)).


Definition PickAllKeys (T : ty) : ty :=
  index (mapped_keyof Keep Remove (fun P _ => P) T) (keyof T).

Definition PickRequiredKeys (T : ty) : ty :=
  index
    (mapped_keyof Keep Remove (fun P _ => cond (TObj []) (Pick T P) TNever P) T)
    (keyof T).

Definition PickPartialKeys (T : ty) : ty :=
  index
    (mapped_keyof Keep Remove (fun P _ => cond (TObj []) (Pick T P) P TNever) T)
    (keyof T).

Definition PickRequired (T : ty) : ty := Pick T (PickRequiredKeys T).

Definition PickPartial (T : ty) : ty := Pick T (PickPartialKeys T).

(** [Equal] compares two generic function types whose return types are the
    conditional types [K extends T ? 1 : 2] and [K extends U ? 1 : 2], both
    undecided because [K] is free.  The checker relates two undecided
    conditional types only when their [extends] types are identical, so the
    comparison holds exactly when [T] and [U] are identical. *)
Definition Equal (T U : ty) : ty :=
  if identical T U then TBoolLit true else TBoolLit false.

Definition PickReadOnlyKeys (T : ty) : ty :=
  index
    (mapped_keyof Keep Keep
       (fun P _ =>
          cond (Equal (mapped_in P T Keep Keep (fun Q => index T Q))
                      (mapped_in P T Add Keep (fun Q => index T Q)))
               (TBoolLit true) P TNever) T)
    (keyof T).

Definition PickReadOnly (T : ty) : ty := Pick T (PickReadOnlyKeys T).

Definition PickMutableKeys (T : ty) : ty :=
  index
    (mapped_keyof Keep Keep
       (fun P _ =>
          cond (Equal (mapped_in P T Keep Keep (fun Q => index T Q))
                      (mapped_in P T Add Keep (fun Q => index T Q)))
               (TBoolLit true) TNever P) T)
    (keyof T).

Definition PickMutable (T : ty) : ty := Pick T (PickMutableKeys T).

(** ** The examples of the source's doc comments *)

Definition req (t : ty) : prop ty := mkProp t false false.
Definition opt (t : ty) : prop ty := mkProp t true false.
Definition ro (t : ty) : prop ty := mkProp t false true.

Definition A_person : ty := TObj [("name", req TString); ("age", req TNumber)].
Definition B_person : ty :=
  TObj [("name", req TString); ("address", req TString); ("gender", req TNumber)].

Definition A_optional : ty :=
  TObj [("name", req TString); ("age", opt TNumber); ("gender", opt TNumber)].

Definition A_readonly : ty := TObj [("name", ro TString); ("age", req TNumber)].

Definition A_nested : ty :=
  TObj [("value", req TString);
        ("next", req (TObj [("data", req TNumber)]));
        ("items", req (TArr false (TObj [("id", opt TNumber)])));
        ("tag", opt (TUnion [TStrLit "on"; TStrLit "off"]))].



Definition A_choice : ty :=
  TObj [("value", req TString);
        ("next", opt (TObj [("data", req TNumber)]));
        ("items", req (TArr false (TObj [("id", req TNumber)])));
        ("tag", req (TUnion [TStrLit "on"; TStrLit "off"]));
        ("either", req (TUnion [TObj [("x", req TString)]; TArr false TNumber]))].

Definition A_mixed : ty :=
  TObj [("value", opt TString);
        ("next", ro (TObj [("data", opt TNumber); ("run", req (TFun [] TString))]));
        ("items", req (TArr true (TObj [("id", opt TNumber)])));
        ("tag", opt (TUnion [TStrLit "on"; TStrLit "off"]))].

(** ** The vocabulary of the statements *)

(** A key: a string literal type. *)
Definition is_key (t : ty) : bool := match t with TStrLit _ => true | _ => false end.

(** What a mapped type over keys yields per key: the key or [never]. *)
Definition keyish (t : ty) : bool :=
  match t with TNever | TStrLit _ => true | _ => false end.

(** The test both classifiers share: the single-key projection compared
    with its read-only version. *)
Definition readonly_test (T P : ty) : ty :=
  Equal (mapped_in P T Keep Keep (fun Q => index T Q))
        (mapped_in P T Add Keep (fun Q => index T Q)).

(** A single alternative: neither [never] nor a union. *)
Definition simple (t : ty) : bool :=
  match t with TNever | TUnion _ => false | _ => true end.

(** A literal type and its primitive type. *)
Definition widens (m b : ty) : bool :=
  match m, b with
  | TStrLit _, TString | TBoolLit _, TBoolean => true
  | _, _ => false
  end.

(** The template the four utilities share: [T[P] extends object ? D<T[P]> : T[P]]. *)
Definition deep_template (D : ty -> ty) (v : ty) : ty := cond v TObjectKw (D v) v.

(** No alternative of [l] is identical to an earlier one or to one of [acc]. *)
Fixpoint fresh (acc l : list ty) : bool :=
  match l with
  | [] => true
  | x :: l' => negb (existsb (identical x) acc) && fresh (acc ++ [x]) l'
  end.

(** An object shape, an array or a tuple. *)
Definition solid (t : ty) : bool :=
  match t with
  | TObj _ | TArr _ _ | TTuple _ _ => true
  | _ => false
  end.

(** Two elements or more. *)
Definition several {A} (l : list A) : bool :=
  match l with
  | _ :: _ :: _ => true
  | _ => false
  end.

(** A value that a [Deep*] utility leaves as it is: [any], [unknown],
    [never], [object], a primitive or literal type, and a union or an
    intersection that is not assignable to [object]. *)
Definition inert (t : ty) : bool :=
  match t with
  | TAny | TUnknown | TNever | TString | TNumber | TBoolean | TObjectKw
  | TStrLit _ | TBoolLit _ => true
  | TUnion _ | TInter _ _ => negb (assignable t TObjectKw)
  | _ => false
  end.

(** The types on which the round trip is the identity.  A value that both
    utilities leave as it is (see [inert]) is arbitrary.  A value the
    recursion enters has to be an object shape none of whose keys is
    read-only, a mutable array or a mutable tuple, whose values are of the
    same kind, or a union of such shapes, arrays and tuples (two or more, no
    two of them identical).  A function type, a [Promise] and an intersection
    that is assignable to [object] are not of this kind. *)
Fixpoint plain (t : ty) : bool :=
  match t with
  | TAny | TUnknown | TNever | TString | TNumber | TBoolean | TObjectKw
  | TStrLit _ | TBoolLit _ => true
  | TObj ps => forallb (fun kp => negb (readonly (snd kp)) && plain (ptype (snd kp))) ps
  | TArr r e => negb r && plain e
  | TTuple r es => negb r && forallb (fun eo => plain (fst eo)) es
  | TUnion alts =>
      negb (assignable t TObjectKw)
      || (several alts && forallb (fun a => solid a && plain a) alts && fresh [] alts)
  | TInter _ _ => negb (assignable t TObjectKw)
  | _ => false
  end.

(** What [TupleUnion] does to one alternative of its argument. *)
Definition TupleUnion_alt (t : ty) : ty :=
  cond_infer t infer_elem (fun U => TArr false U) (fun U => U) TNever.

(** The element types of an array or a tuple. *)
Definition element_types (t : ty) : list ty :=
  match t with
  | TArr _ e => [e]
  | TTuple _ es => map fst es
  | _ => []
  end.

(** A mutable array or tuple type. *)
Definition array_like (t : ty) : bool :=
  match t with
  | TArr r _ | TTuple r _ => negb r
  | _ => false
  end.

(** A single type that is no array: a primitive or literal type, [unknown],
    [object], an object shape, a function, a [Promise], or a read-only array
    or tuple. *)
Definition not_array (t : ty) : bool :=
  match t with
  | TUnknown | TString | TNumber | TBoolean | TObjectKw | TStrLit _ | TBoolLit _
  | TObj _ | TFun _ _ | TPromise _ => true
  | TArr r _ | TTuple r _ => r
  | _ => false
  end.




(** [selected U k]: the key [k] is one of the alternatives of [U]. *)
Definition selected (U : ty) (k : string) : bool :=
  existsb (fun m => match m with TStrLit s => String.eqb s k | _ => false end)
          (members U).

(** A list of keys without repetition. *)
Fixpoint nodupb (ks : list string) : bool :=
  match ks with
  | [] => true
  | k :: ks' => negb (existsb (String.eqb k) ks') && nodupb ks'
  end.

(** A type without union: a single alternative whose object shapes, at every
    depth, have distinct keys and property types of the same kind. *)
Fixpoint atom (t : ty) : bool :=
  match t with
  | TNever | TUnion _ => false
  | TObj ps => nodupb (map fst ps) && forallb (fun kp => atom (ptype (snd kp))) ps
  | _ => true
  end.

(** A type in the normal form of unions: normalising it changes nothing. *)
Definition normal (t : ty) : Prop := Union [t] = t.


(** The mapped type the four [Deep*] utilities are instances of, with its two
    modifiers as parameters. *)
Fixpoint deep_map (mro mopt : modifier) (T : ty) : ty :=
  mapped_keyof mro mopt (fun _ v => cond v TObjectKw (deep_map mro mopt v) v) T.

(** No value the recursion of a [Deep*] utility enters is a union: a union
    among the property values and element types, at any depth, is not
    assignable to [object]. *)
Fixpoint no_object_union (t : ty) : bool :=
  match t with
  | TObj ps => forallb (fun kp => no_object_union (ptype (snd kp))) ps
  | TArr _ e => no_object_union e
  | TTuple _ es => forallb (fun eo => no_object_union (fst eo)) es
  | TUnion _ => negb (assignable t TObjectKw)
  | _ => true
  end.

(** A primitive or literal type, or [unknown]: a type without key and
    without element, not assignable to [object]. *)
Definition leaf (t : ty) : bool :=
  match t with
  | TUnknown | TString | TNumber | TBoolean | TStrLit _ | TBoolLit _ => true
  | _ => false
  end.

(** Every object shape, array and tuple found in [t] lies where the recursion
    of a [Deep*] utility reaches it: as a property value or an element type,
    at any depth.  None is hidden in a union (whose alternatives are
    primitive or literal types), in an intersection or in a [Promise]; a
    function type may have any, its keys are dropped with it. *)
Fixpoint within_reach (t : ty) : bool :=
  match t with
  | TObj ps => forallb (fun kp => within_reach (ptype (snd kp))) ps
  | TArr _ e => within_reach e
  | TTuple _ es => forallb (fun eo => within_reach (fst eo)) es
  | TUnion alts => negb (Nat.eqb (List.length alts) 0) && forallb leaf alts
  | TInter _ _ | TPromise _ => false
  | _ => true
  end.

(** [markers_all fo fr t]: every optional marker found in [t] satisfies [fo]
    and every read-only marker satisfies [fr], wherever it is: in a property
    value, an element type, an alternative of a union, a constituent of an
    intersection, a parameter or a result. *)
Fixpoint markers_all (fo fr : bool -> bool) (t : ty) : bool :=
  match t with
  | TObj ps =>
      forallb (fun kp => fo (optional (snd kp)) && fr (readonly (snd kp))
                         && markers_all fo fr (ptype (snd kp))) ps
  | TArr r e => fr r && markers_all fo fr e
  | TTuple r es => fr r && forallb (fun eo => fo (snd eo) && markers_all fo fr (fst eo)) es
  | TFun ps r => forallb (markers_all fo fr) ps && markers_all fo fr r
  | TPromise r => markers_all fo fr r
  | TUnion alts => forallb (markers_all fo fr) alts
  | TInter l r => markers_all fo fr l && markers_all fo fr r
  | _ => true
  end.

(** * Properties *)

(** ** The documented examples

    The model gives the result announced in the doc comment of each of
    these utilities. *)

Example Intersect_doc : Intersect A_person B_person = TObj [("name", req TString)].
Proof. reflexivity. Qed.

Example Except_doc : Except A_person B_person = TObj [("age", req TNumber)].
Proof. reflexivity. Qed.

(** [void] is not part of the model: the callback returns [unknown] here. *)
Example UnionOmit_doc :
  UnionOmit
    (TObj [("value", req TString); ("disabled", opt TBoolean);
           ("onChange", req (TFun [] TUnknown))])
    (TObj [("value", req TNumber); ("onChange", req (TFun [] TUnknown))])
  = TObj [("value", req TString); ("disabled", opt TBoolean);
          ("onChange", req (TFun [] TUnknown))].
Proof. reflexivity. Qed.

(** The members of the two alternatives are those of the documented union
    [{name?: string; age: number; gender: number}
     | {name: string; age: number; gender?: number}]. *)
Example RequireAtLeastOneByKeys_doc :
  RequireAtLeastOneByKeys
    (TObj [("name", req TString); ("age", req TNumber); ("gender", req TNumber)])
    (TUnion [TStrLit "name"; TStrLit "gender"])
  = TUnion [TObj [("age", req TNumber); ("name", req TString); ("gender", opt TNumber)];
            TObj [("age", req TNumber); ("gender", req TNumber); ("name", opt TString)]].
Proof. reflexivity. Qed.

Example Weaken_doc :
  Weaken (TObj [("name", req TString); ("say", req (TFun [TString] TString))])
         (TStrLit "name")
  = TObj [("name", req TAny); ("say", req (TFun [TString] TString))].
Proof. reflexivity. Qed.

Example Promisify_doc : Promisify (TFun [] (TPromise TString)) = TString.
Proof. reflexivity. Qed.

Example DeepPartial_doc :
  DeepPartial (TObj [("value", req TString); ("next", req (TObj [("data", req TNumber)]))])
  = TObj [("value", opt TString); ("next", opt (TObj [("data", opt TNumber)]))].
Proof. reflexivity. Qed.

Example DeepRequired_doc :
  DeepRequired (TObj [("value", opt TString); ("next", opt (TObj [("data", opt TNumber)]))])
  = TObj [("value", req TString); ("next", req (TObj [("data", req TNumber)]))].
Proof. reflexivity. Qed.

Example DeepReadOnly_doc :
  DeepReadOnly (TObj [("value", req TString); ("next", req (TObj [("data", req TNumber)]))])
  = TObj [("value", ro TString); ("next", ro (TObj [("data", ro TNumber)]))].
Proof. reflexivity. Qed.

Example DeepMutable_doc :
  DeepMutable (TObj [("value", ro TString); ("next", ro (TObj [("data", ro TNumber)]))])
  = TObj [("value", req TString); ("next", req (TObj [("data", req TNumber)]))].
Proof. reflexivity. Qed.

Example RequiredByKeys_doc :
  RequiredByKeys
    (TObj [("name", opt TString); ("age", opt TNumber); ("gender", opt TNumber)])
    (TStrLit "name")
  = TObj [("name", req TString); ("age", opt TNumber); ("gender", opt TNumber)].
Proof. reflexivity. Qed.

(** With the rule of the compilers up to 4.4 for the markers of an
    intersection; a later compiler leaves [name] mutable. *)
Example ReadOnlyByKeys_doc :
  ReadOnlyByKeys
    (TObj [("name", req TString); ("age", req TNumber); ("gender", req TNumber)])
    (TStrLit "name")
  = TObj [("name", ro TString); ("age", req TNumber); ("gender", req TNumber)].
Proof. reflexivity. Qed.

Example PickKeys_doc :
  PickAllKeys A_optional = TUnion [TStrLit "name"; TStrLit "age"; TStrLit "gender"]
  /\ PickRequiredKeys A_optional = TStrLit "name"
  /\ PickPartialKeys A_optional = TUnion [TStrLit "age"; TStrLit "gender"]
  /\ PickRequired A_optional = TObj [("name", req TString)]
  /\ PickPartial A_optional = TObj [("age", opt TNumber); ("gender", opt TNumber)].
Proof. repeat split; reflexivity. Qed.

Example PickReadOnly_doc :
  PickReadOnlyKeys A_readonly = TStrLit "name"
  /\ PickMutableKeys A_readonly = TStrLit "age"
  /\ PickReadOnly A_readonly = TObj [("name", ro TString)]
  /\ PickMutable A_readonly = TObj [("age", req TNumber)].
Proof. repeat split; reflexivity. Qed.

(** ** Identity is reflexive *)

Lemma all2_refl {A} (f : A -> A -> bool) (l : list A) :
  Forall (fun x => f x x = true) l -> all2 f l l = true.
Proof.
  induction 1 as [|x l Hx _ IH]; simpl; [reflexivity|].
  now rewrite Hx, IH.
Qed.

Lemma forallb_existsb_self {A} (f : A -> A -> bool) (l : list A) :
  Forall (fun x => f x x = true) l ->
  forallb (fun x => existsb (fun y => f x y) l) l = true.
Proof.
  intros H. apply forallb_forall. intros x Hx.
  apply existsb_exists. exists x. split; [assumption|].
  rewrite Forall_forall in H. now apply H.
Qed.

Lemma forallb_existsb_self_flip {A} (f : A -> A -> bool) (l : list A) :
  Forall (fun x => f x x = true) l ->
  forallb (fun y => existsb (fun x => f x y) l) l = true.
Proof.
  intros H. apply forallb_forall. intros x Hx.
  apply existsb_exists. exists x. split; [assumption|].
  rewrite Forall_forall in H. now apply H.
Qed.

Lemma identical_refl (t : ty) : identical t t = true.
Proof.
  induction t using ty_ind_nested; simpl; try reflexivity.
  - apply String.eqb_refl.
  - apply Bool.eqb_reflx.
  - rewrite Nat.eqb_refl. simpl.
    assert (Hs : Forall
                   (fun kp : string * prop ty =>
                      String.eqb (fst kp) (fst kp)
                      && Bool.eqb (optional (snd kp)) (optional (snd kp))
                      && Bool.eqb (readonly (snd kp)) (readonly (snd kp))
                      && identical (ptype (snd kp)) (ptype (snd kp)) = true) ps).
    { eapply Forall_impl; [|exact H]. intros kp Hk. simpl in Hk.
      now rewrite String.eqb_refl, !Bool.eqb_reflx, Hk. }
    rewrite (forallb_existsb_self _ ps Hs).
    now rewrite (forallb_existsb_self_flip _ ps Hs).
  - now rewrite Bool.eqb_reflx, IHt.
  - rewrite Bool.eqb_reflx. simpl. apply all2_refl.
    eapply Forall_impl; [|exact H]. intros eo He. simpl in He.
    now rewrite Bool.eqb_reflx, He.
  - rewrite (all2_refl identical ps H). exact IHt.
  - exact IHt.
  - rewrite (forallb_existsb_self identical alts H).
    now rewrite (forallb_existsb_self_flip identical alts H).
  - now rewrite IHt1, IHt2.
Qed.

(** C4. [Equal] is reflexive: for every type [T], [Equal<T, T>] is the
    literal type [true]; and [Equal] sees optionality:
    [Equal<{a: string}, {a?: string}>] is [false]. *)
Theorem Equal_reflexive_and_optionality :
  (forall T : ty, Equal T T = TBoolLit true)
  /\ Equal (TObj [("a", req TString)]) (TObj [("a", opt TString)]) = TBoolLit false.
Proof.
  split.
  - intros T. unfold Equal. now rewrite identical_refl.
  - reflexivity.
Qed.

(** ** Unions of keys *)

Lemma nub_into_acc (l acc : list ty) (a : ty) :
  In a acc -> In a (nub_into acc l).
Proof.
  revert acc. induction l as [|x l IH]; intros acc Ha; simpl; [assumption|].
  destruct (existsb (identical x) acc); apply IH; [assumption|].
  apply in_or_app. now left.
Qed.

Lemma nub_into_sub (l acc : list ty) (a : ty) :
  In a (nub_into acc l) -> In a acc \/ In a l.
Proof.
  revert acc. induction l as [|x l IH]; intros acc Ha; simpl in *; [now left|].
  destruct (existsb (identical x) acc).
  - destruct (IH _ Ha); auto.
  - destruct (IH _ Ha) as [H|H]; auto.
    apply in_app_or in H. destruct H as [H|[H|[]]]; auto.
Qed.

(** Every alternative is represented, up to identity, in the result. *)
Lemma nub_into_repr (l acc : list ty) (a : ty) :
  In a l -> exists b, In b (nub_into acc l) /\ identical a b = true.
Proof.
  revert acc. induction l as [|x l IH]; intros acc Ha; simpl in *; [contradiction|].
  destruct Ha as [->|Ha].
  - destruct (existsb (identical a) acc) eqn:E.
    + apply existsb_exists in E. destruct E as [b [Hb Hab]].
      exists b. split; [now apply nub_into_acc|assumption].
    + exists a. split; [|apply identical_refl].
      apply nub_into_acc. apply in_or_app. right. now left.
  - destruct (existsb (identical x) acc); now apply IH.
Qed.

Lemma identical_key (s : string) (b : ty) :
  identical (TStrLit s) b = true -> b = TStrLit s.
Proof.
  destruct b; simpl; try discriminate.
  intros H. apply String.eqb_eq in H. now subst.
Qed.

Lemma nub_In_keys (l : list ty) (s : string) :
  In (TStrLit s) (nub l) <-> In (TStrLit s) l.
Proof.
  unfold nub. split; intros H.
  - destruct (nub_into_sub _ _ _ H) as [[]|H']. exact H'.
  - destruct (nub_into_repr l [] _ H) as [b [Hb Hi]].
    apply identical_key in Hi. now subst.
Qed.

Lemma nub_into_keys_nodup (ks : list string) (acc : list ty) :
  NoDup ks -> (forall k, In k ks -> ~ In (TStrLit k) acc) ->
  Forall (fun t => is_key t = true) acc ->
  nub_into acc (map TStrLit ks) = acc ++ map TStrLit ks.
Proof.
  revert acc. induction ks as [|k ks IH]; intros acc Hnd Hfresh Hacc;
    cbn [nub_into map].
  - now rewrite app_nil_r.
  - inversion Hnd as [|? ? Hk Hnd']; subst.
    destruct (existsb (identical (TStrLit k)) acc) eqn:E.
    + apply existsb_exists in E. destruct E as [b [Hb Hi]].
      apply identical_key in Hi. subst. exfalso. apply (Hfresh k); simpl; auto.
    + rewrite IH; [now rewrite <- List.app_assoc| assumption | |].
      * intros k' Hk' Hin. apply in_app_or in Hin. destruct Hin as [Hin|[Hin|[]]].
        -- apply (Hfresh k'); simpl; auto.
        -- injection Hin as ->. contradiction.
      * apply Forall_app. split; [assumption|]. now constructor.
Qed.

Lemma nub_keys_nodup (ks : list string) :
  NoDup ks -> nub (map TStrLit ks) = map TStrLit ks.
Proof.
  intros H. unfold nub. rewrite nub_into_keys_nodup; auto.
Qed.

Lemma flat_members_keyish (l : list ty) :
  Forall (fun t => keyish t = true) l -> flat_map members l = filter is_key l.
Proof.
  induction 1 as [|x l Hx _ IH]; simpl; [reflexivity|].
  rewrite IH. destruct x; simpl in *; try discriminate; reflexivity.
Qed.

Lemma flat_members_keys (l : list ty) :
  Forall (fun t => is_key t = true) l -> flat_map members l = l.
Proof.
  induction 1 as [|x l Hx _ IH]; simpl; [reflexivity|].
  rewrite IH. destruct x; simpl in *; try discriminate; reflexivity.
Qed.

Lemma nub_into_all (P : ty -> Prop) (l acc : list ty) :
  Forall P acc -> Forall P l -> Forall P (nub_into acc l).
Proof.
  intros Ha Hl. apply Forall_forall. intros x Hx.
  destruct (nub_into_sub _ _ _ Hx) as [H|H];
    [rewrite Forall_forall in Ha | rewrite Forall_forall in Hl]; auto.
Qed.

Lemma filter_not_absorbed (l0 l : list ty) :
  existsb is_string l0 = false -> Forall (fun t => is_key t = true) l ->
  filter (fun t => negb (absorbed l0 t)) l = l.
Proof.
  intros Hl0. induction 1 as [|x l Hx _ IH]; simpl; [reflexivity|].
  rewrite IH. destruct x; simpl in *; try discriminate. now rewrite Hl0.
Qed.

Lemma keys_not_special (l : list ty) :
  Forall (fun t => is_key t = true) l ->
  existsb is_any l = false /\ existsb is_unknown l = false
  /\ filter (fun t => negb (absorbed l t)) l = l.
Proof.
  intros H.
  assert (Hs : existsb is_string l = false).
  { induction H as [|x l Hx _ IH]; simpl; [reflexivity|].
    rewrite IH. destruct x; simpl in *; try discriminate; reflexivity. }
  repeat split.
  - induction H as [|x l Hx _ IH]; simpl; [reflexivity|].
    simpl in Hs. apply orb_false_elim in Hs. rewrite (IH (proj2 Hs)).
    destruct x; simpl in *; try discriminate; reflexivity.
  - induction H as [|x l Hx _ IH]; simpl; [reflexivity|].
    simpl in Hs. apply orb_false_elim in Hs. rewrite (IH (proj2 Hs)).
    destruct x; simpl in *; try discriminate; reflexivity.
  - now apply filter_not_absorbed.
Qed.

(** The alternatives of a union of keys: the keys, each once. *)
Lemma members_Union_keyish (l : list ty) :
  Forall (fun t => keyish t = true) l ->
  members (Union l) = nub (filter is_key l).
Proof.
  intros H. unfold Union. rewrite (flat_members_keyish l H).
  assert (Hk : Forall (fun t => is_key t = true) (filter is_key l)).
  { apply Forall_forall. intros x Hx. now apply filter_In in Hx. }
  destruct (keys_not_special _ Hk) as [-> [-> ->]].
  assert (Hn : Forall (fun t => is_key t = true) (nub (filter is_key l))).
  { apply nub_into_all; [constructor|assumption]. }
  destruct (nub (filter is_key l)) as [|t [|t' l']] eqn:E; [reflexivity| |].
  - inversion Hn; subst. destruct t; simpl in *; try discriminate; reflexivity.
  - simpl. change (flat_map members (t :: t' :: l') = t :: t' :: l').
    now apply flat_members_keys.
Qed.

Lemma In_members_Union_keyish (l : list ty) (s : string) :
  Forall (fun t => keyish t = true) l ->
  In (TStrLit s) (members (Union l)) <-> In (TStrLit s) l.
Proof.
  intros H. rewrite (members_Union_keyish l H), nub_In_keys, filter_In.
  simpl. tauto.
Qed.

Lemma members_Union_keyish_keys (l : list ty) :
  Forall (fun t => keyish t = true) l ->
  Forall (fun t => is_key t = true) (members (Union l)).
Proof.
  intros H. rewrite (members_Union_keyish l H).
  apply nub_into_all; [constructor|].
  apply Forall_forall. intros x Hx. now apply filter_In in Hx.
Qed.

Lemma Union_keys (l : list ty) :
  Forall (fun t => is_key t = true) l ->
  Union l = match nub l with
            | [] => TNever
            | [t] => t
            | l' => TUnion l'
            end.
Proof.
  intros H. unfold Union. rewrite (flat_members_keys l H).
  now destruct (keys_not_special l H) as [-> [-> ->]].
Qed.

Lemma is_key_keyish (l : list ty) :
  Forall (fun t => is_key t = true) l -> Forall (fun t => keyish t = true) l.
Proof.
  apply Forall_impl. intros t. destruct t; simpl; congruence.
Qed.

Lemma nub_keys_all (l : list ty) :
  Forall (fun t => is_key t = true) l -> Forall (fun t => is_key t = true) (nub l).
Proof. intros H. apply nub_into_all; [constructor|assumption]. Qed.

Lemma nub_In_key (l : list ty) (k : ty) :
  is_key k = true -> (In k (nub l) <-> In k l).
Proof.
  destruct k; simpl; try discriminate. intros _. apply nub_In_keys.
Qed.

(** Indexing by a union of keys, when every property type read is a key or
    [never]: the result collects the keys read. *)
Lemma index_key_union (T : ty) (l0 : list ty) :
  Forall (fun t => is_key t = true) l0 ->
  (forall k, In k l0 -> keyish (index1 T k) = true) ->
  Forall (fun t => is_key t = true) (members (index T (Union l0)))
  /\ forall s, In (TStrLit s) (members (index T (Union l0)))
               <-> exists k, In k l0 /\ index1 T k = TStrLit s.
Proof.
  intros Hk Hh. rewrite (Union_keys l0 Hk).
  pose proof (nub_keys_all l0 Hk) as Hn.
  assert (Hin : forall k, is_key k = true -> (In k (nub l0) <-> In k l0))
    by (intros; now apply nub_In_key).
  destruct (nub l0) as [|t [|t' l']] eqn:E.
  - simpl. split; [constructor|]. intros s. split; [intros []|].
    intros [k [Hk' _]]. rewrite Forall_forall in Hk.
    now apply (Hin k (Hk k Hk')).
  - inversion Hn as [|? ? Ht _]; subst.
    assert (Ht0 : In t l0) by (apply (Hin t Ht); now left).
    assert (Hix : index T t = index1 T t)
      by (destruct t; simpl in Ht; try discriminate; reflexivity).
    rewrite Hix. pose proof (Hh t Ht0) as Hkt. split.
    + destruct (index1 T t); simpl in *; try discriminate; repeat constructor.
    + intros s. split.
      * intros Hs. exists t. split; [assumption|].
        destruct (index1 T t); simpl in *; try discriminate; try contradiction.
        now destruct Hs as [->|[]].
      * intros [k [Hk' Hks]]. rewrite Forall_forall in Hk.
        apply (Hin k (Hk k Hk')) in Hk'. destruct Hk' as [->|[]].
        rewrite Hks. now left.
  - assert (Hm : members (TUnion (t :: t' :: l')) = t :: t' :: l')
      by (apply flat_members_keys; assumption).
    unfold index. rewrite Hm.
    assert (Hky : Forall (fun x => keyish x = true) (map (index1 T) (t :: t' :: l'))).
    { apply Forall_forall. intros x Hx. apply in_map_iff in Hx.
      destruct Hx as [k [<- Hk']]. apply Hh. rewrite Forall_forall in Hn.
      now apply (Hin k (Hn k Hk')). }
    split; [now apply members_Union_keyish_keys|].
    intros s. rewrite (In_members_Union_keyish _ s Hky), in_map_iff.
    rewrite Forall_forall in Hk, Hn.
    split; intros [k [H1 H2]]; exists k.
    + split; [|assumption]. now apply (Hin k (Hn k H2)).
    + split; [assumption|]. now apply (Hin k (Hk k H1)).
Qed.

(** ** Key classifiers

    [PickAllKeys], [PickRequiredKeys], [PickPartialKeys], [PickReadOnlyKeys]
    and [PickMutableKeys] have one form: a mapped type over [keyof T] whose
    template is the key or [never], indexed by [keyof T]. *)

Section classifier.
Variables (mro mopt : modifier) (f : ty -> ty).
Hypothesis f_key : forall k, f (TStrLit k) = TStrLit k \/ f (TStrLit k) = TNever.

Let mk (kp : string * prop ty) : string * prop ty :=
  (fst kp,
   mkProp (f (TStrLit (fst kp)))
          (apply_mod mopt (optional (snd kp)))
          (apply_mod mro (readonly (snd kp)))).

Lemma index1_classifier (ps : list (string * prop ty)) (k : string) :
  In k (keys ps) -> index1 (TObj (map mk ps)) (TStrLit k) = f (TStrLit k).
Proof.
  unfold index1, lookup, keys.
  induction ps as [|kp ps IH]; simpl; [contradiction|].
  destruct (String.eqb (fst kp) k) eqn:E.
  - intros _. apply String.eqb_eq in E. now subst.
  - intros [H|H]; [apply String.eqb_neq in E; contradiction|]. now apply IH.
Qed.

Lemma classifier_members (ps : list (string * prop ty)) :
  let K := index (mapped_keyof mro mopt (fun P _ => f P) (TObj ps)) (keyof (TObj ps)) in
  Forall (fun t => is_key t = true) (members K)
  /\ forall s, In (TStrLit s) (members K)
               <-> In s (keys ps) /\ f (TStrLit s) = TStrLit s.
Proof.
  cbn [mapped_keyof keyof props_of]. fold mk.
  set (l0 := map (fun kp : string * prop ty => TStrLit (fst kp)) ps).
  assert (Hl0 : Forall (fun t => is_key t = true) l0).
  { apply Forall_forall. intros x Hx. apply in_map_iff in Hx.
    now destruct Hx as [kp [<- _]]. }
  assert (Hkeys : forall k, In k l0 <-> exists s, k = TStrLit s /\ In s (keys ps)).
  { intros k. unfold l0, keys. rewrite in_map_iff. split.
    - intros [kp [<- Hkp]]. exists (fst kp). split; [reflexivity|].
      now apply in_map.
    - intros [s [-> Hs]]. apply in_map_iff in Hs. destruct Hs as [kp [<- Hkp]].
      now exists kp. }
  assert (Hh : forall k, In k l0 -> keyish (index1 (TObj (map mk ps)) k) = true).
  { intros k Hk. apply Hkeys in Hk. destruct Hk as [s [-> Hs]].
    rewrite (index1_classifier ps s Hs). now destruct (f_key s) as [-> | ->]. }
  destruct (index_key_union (TObj (map mk ps)) l0 Hl0 Hh) as [HA HB].
  split; [exact HA|]. intros s. rewrite HB. split.
  - intros [k [Hk Hs]]. apply Hkeys in Hk. destruct Hk as [s' [-> Hs']].
    rewrite (index1_classifier ps s' Hs') in Hs.
    destruct (f_key s') as [E|E]; rewrite E in Hs; [|discriminate].
    injection Hs as ->. now split.
  - intros [Hs Hf]. exists (TStrLit s). split.
    + apply Hkeys. now exists s.
    + now rewrite (index1_classifier ps s Hs).
Qed.
End classifier.

(** ** Required and optional keys *)

(** The empty shape is assignable to a single-key projection exactly when
    the key is optional. *)
Lemma empty_assignable_Pick (ps : list (string * prop ty)) (k : string) (p : prop ty) :
  lookup k ps = Some p ->
  assignable (TObj []) (Pick (TObj ps) (TStrLit k)) = optional p.
Proof.
  intros H. unfold Pick, mapped_in. cbn [members flat_map props_of].
  rewrite H. cbn [app apply_mod]. unfold assignable.
  cbn [size map list_sum Nat.add assignable_fuel]. unfold assign_step.
  cbn [identical List.length Nat.eqb andb].
  cbn [forallb fst snd lookup props_of find option_map optional].
  now rewrite andb_true_r.
Qed.

(** C6. For every object shape [T] and every key [K] of [T]: [K] is in
    [PickRequiredKeys<T>] exactly when the empty shape [{}] is not assignable
    to [Pick<T, K>], and [K] is in [PickPartialKeys<T>] exactly when it
    is. *)
Theorem PickRequiredKeys_by_assignability
  (ps : list (string * prop ty)) (k : string) :
  In k (keys ps) ->
  (In (TStrLit k) (members (PickRequiredKeys (TObj ps)))
   <-> assignable (TObj []) (Pick (TObj ps) (TStrLit k)) = false)
  /\ (In (TStrLit k) (members (PickPartialKeys (TObj ps)))
      <-> assignable (TObj []) (Pick (TObj ps) (TStrLit k)) = true).
Proof.
  intros Hk. split.
  - pose (f := fun P => cond (TObj []) (Pick (TObj ps) P) TNever P).
    change (PickRequiredKeys (TObj ps))
      with (index (mapped_keyof Keep Remove (fun P _ => f P) (TObj ps))
                  (keyof (TObj ps))).
    assert (Hf : forall s, f (TStrLit s) = TStrLit s \/ f (TStrLit s) = TNever).
    { intros s. unfold f, cond.
      destruct (assignable (TObj []) (Pick (TObj ps) (TStrLit s))); auto. }
    destruct (classifier_members Keep Remove f Hf ps) as [_ H].
    rewrite (H k). unfold f, cond.
    destruct (assignable (TObj []) (Pick (TObj ps) (TStrLit k)));
      intuition congruence.
  - pose (f := fun P => cond (TObj []) (Pick (TObj ps) P) P TNever).
    change (PickPartialKeys (TObj ps))
      with (index (mapped_keyof Keep Remove (fun P _ => f P) (TObj ps))
                  (keyof (TObj ps))).
    assert (Hf : forall s, f (TStrLit s) = TStrLit s \/ f (TStrLit s) = TNever).
    { intros s. unfold f, cond.
      destruct (assignable (TObj []) (Pick (TObj ps) (TStrLit s))); auto. }
    destruct (classifier_members Keep Remove f Hf ps) as [_ H].
    rewrite (H k). unfold f, cond.
    destruct (assignable (TObj []) (Pick (TObj ps) (TStrLit k)));
      intuition congruence.
Qed.

Lemma PickRequiredKeys_by_assignability_witness :
  In "age" (keys (props_of A_optional))
  /\ (In (TStrLit "age") (members (PickPartialKeys A_optional))
      <-> assignable (TObj []) (Pick A_optional (TStrLit "age")) = true).
Proof.
  split.
  - simpl. auto.
  - apply (PickRequiredKeys_by_assignability (props_of A_optional) "age").
    simpl. auto.
Defined.

(** ** Read-only and mutable keys *)

(** The test is the read-only marker of the key. *)
Lemma readonly_test_marker (ps : list (string * prop ty)) (k : string) (p : prop ty) :
  lookup k ps = Some p ->
  readonly_test (TObj ps) (TStrLit k) = TBoolLit (readonly p).
Proof.
  intros H. unfold readonly_test, mapped_in, Equal.
  cbn [members flat_map props_of]. rewrite H.
  cbn [app apply_mod identical List.length Nat.eqb forallb existsb fst snd
       optional readonly ptype andb orb].
  rewrite String.eqb_refl, !Bool.eqb_reflx, identical_refl.
  now destruct (readonly p).
Qed.

Lemma cond_Equal_true (T U x y : ty) :
  cond (Equal T U) (TBoolLit true) x y = if identical T U then x else y.
Proof. unfold Equal. now destruct (identical T U). Qed.

(** C3. For every object shape [T], [PickReadOnlyKeys<T>] and
    [PickMutableKeys<T>] have no key in common, their union is
    [PickAllKeys<T>], and every key of [T] is in exactly one of them. *)
Theorem PickReadOnlyKeys_PickMutableKeys_partition (ps : list (string * prop ty)) :
  (forall t, ~ (In t (members (PickReadOnlyKeys (TObj ps)))
                /\ In t (members (PickMutableKeys (TObj ps)))))
  /\ (forall t, In t (members (PickAllKeys (TObj ps)))
                <-> In t (members (PickReadOnlyKeys (TObj ps)))
                    \/ In t (members (PickMutableKeys (TObj ps))))
  /\ (forall k, In k (keys ps) ->
                (In (TStrLit k) (members (PickReadOnlyKeys (TObj ps)))
                 /\ ~ In (TStrLit k) (members (PickMutableKeys (TObj ps))))
                \/ (~ In (TStrLit k) (members (PickReadOnlyKeys (TObj ps)))
                    /\ In (TStrLit k) (members (PickMutableKeys (TObj ps))))).
Proof.
  set (T := TObj ps).
  set (fr := fun P => cond (readonly_test T P) (TBoolLit true) P TNever).
  set (fm := fun P => cond (readonly_test T P) (TBoolLit true) TNever P).
  set (fa := fun P : ty => P).
  assert (Hfr : forall s, fr (TStrLit s) = TStrLit s \/ fr (TStrLit s) = TNever).
  { intros s. unfold fr, readonly_test. rewrite cond_Equal_true.
    destruct (identical _ _); auto. }
  assert (Hfm : forall s, fm (TStrLit s) = TStrLit s \/ fm (TStrLit s) = TNever).
  { intros s. unfold fm, readonly_test. rewrite cond_Equal_true.
    destruct (identical _ _); auto. }
  assert (Hfa : forall s, fa (TStrLit s) = TStrLit s \/ fa (TStrLit s) = TNever)
    by (intros s; now left).
  assert (Hx : forall s, (fr (TStrLit s) = TStrLit s /\ fm (TStrLit s) <> TStrLit s)
                         \/ (fr (TStrLit s) <> TStrLit s /\ fm (TStrLit s) = TStrLit s)).
  { intros s. unfold fr, fm, readonly_test. rewrite !cond_Equal_true.
    destruct (identical _ _); [left|right]; split; congruence. }
  destruct (classifier_members Keep Keep fr Hfr ps) as [Kr Mr].
  destruct (classifier_members Keep Keep fm Hfm ps) as [Km Mm].
  destruct (classifier_members Keep Remove fa Hfa ps) as [Ka Ma].
  change (index (mapped_keyof Keep Keep (fun P _ => fr P) (TObj ps)) (keyof (TObj ps)))
    with (PickReadOnlyKeys T) in Kr, Mr.
  change (index (mapped_keyof Keep Keep (fun P _ => fm P) (TObj ps)) (keyof (TObj ps)))
    with (PickMutableKeys T) in Km, Mm.
  change (index (mapped_keyof Keep Remove (fun P _ => fa P) (TObj ps)) (keyof (TObj ps)))
    with (PickAllKeys T) in Ka, Ma.
  rewrite Forall_forall in Kr, Km, Ka.
  assert (Hlit : forall t, is_key t = true -> exists s, t = TStrLit s).
  { intros t. destruct t; simpl; try discriminate. intros _. now eexists. }
  split; [|split].
  - intros t [H1 H2]. destruct (Hlit t (Kr t H1)) as [s ->].
    apply Mr in H1. apply Mm in H2. destruct (Hx s); tauto.
  - intros t. split.
    + intros H. destruct (Hlit t (Ka t H)) as [s ->].
      apply Ma in H. destruct H as [H _].
      destruct (Hx s) as [[E _]|[_ E]]; [left; apply Mr|right; apply Mm]; tauto.
    + intros [H|H].
      * destruct (Hlit t (Kr t H)) as [s ->]. apply Mr in H. apply Ma.
        unfold fa. tauto.
      * destruct (Hlit t (Km t H)) as [s ->]. apply Mm in H. apply Ma.
        unfold fa. tauto.
  - intros k Hk. rewrite (Mr k), (Mm k). destruct (Hx k); tauto.
Qed.

(** ** Every alternative is assignable to the union *)

Lemma members_simple (t m : ty) : In m (members t) -> simple m = true.
Proof.
  induction t using ty_ind_nested; simpl; intros Hm;
    try (destruct Hm as [<-|[]]; reflexivity); try contradiction.
  apply in_flat_map in Hm. destruct Hm as [a [Ha Hm]].
  rewrite Forall_forall in H. now apply (H a Ha).
Qed.

Lemma size_pos (t : ty) : 1 <= size t.
Proof. destruct t; simpl; lia. Qed.

Lemma assignable_fuel_identical (n : nat) (s t : ty) :
  identical s t = true -> assignable_fuel (S n) s t = true.
Proof. intros H. cbn [assignable_fuel]. unfold assign_step. now rewrite H. Qed.

Lemma assignable_fuel_widens (n : nat) (m b : ty) :
  widens m b = true -> assignable_fuel (S n) m b = true.
Proof. destruct m, b; simpl; try discriminate; reflexivity. Qed.

Lemma existsb_is_string (l : list ty) :
  existsb is_string l = true -> In TString l.
Proof.
  intros H. apply existsb_exists in H. destruct H as [x [Hx Hs]].
  destruct x; simpl in Hs; try discriminate. exact Hx.
Qed.

Lemma existsb_is_boolean (l : list ty) :
  existsb is_boolean l = true -> In TBoolean l.
Proof.
  intros H. apply existsb_exists in H. destruct H as [x [Hx Hs]].
  destruct x; simpl in Hs; try discriminate. exact Hx.
Qed.

(** Each alternative is kept by the normal form, up to identity, or is a
    literal absorbed by its primitive type. *)
Lemma normal_form_covers (flat : list ty) (m : ty) :
  In m flat ->
  exists b, In b (nub (filter (fun t => negb (absorbed flat t)) flat))
            /\ (identical m b = true \/ widens m b = true).
Proof.
  intros Hm. destruct (absorbed flat m) eqn:E.
  - assert (Hp : exists p, In p flat /\ absorbed flat p = false /\ widens m p = true).
    { destruct m; simpl in E; try discriminate.
      - exists TString. split; [now apply existsb_is_string|]. now split.
      - exists TBoolean. split; [now apply existsb_is_boolean|]. now split. }
    destruct Hp as [p [Hp [Hpa Hw]]].
    assert (Hf : In p (filter (fun t => negb (absorbed flat t)) flat))
      by (apply filter_In; split; [assumption|now rewrite Hpa]).
    destruct (nub_into_repr _ [] p Hf) as [b [Hb Hi]].
    exists b. split; [exact Hb|]. right.
    destruct m, p; simpl in Hw; try discriminate;
      destruct b; simpl in Hi; try discriminate; reflexivity.
  - assert (Hf : In m (filter (fun t => negb (absorbed flat t)) flat))
      by (apply filter_In; split; [assumption|now rewrite E]).
    destruct (nub_into_repr _ [] m Hf) as [b [Hb Hi]].
    exists b. split; [exact Hb|]. now left.
Qed.

Lemma member_assignable_Union (xs : list ty) (m : ty) (n : nat) :
  In m (flat_map members xs) ->
  assignable_fuel (S (S n)) m (Union xs) = true.
Proof.
  intros Hm.
  assert (Hs : simple m = true).
  { apply in_flat_map in Hm. destruct Hm as [x [_ Hm]].
    now apply (members_simple x). }
  unfold Union.
  destruct (existsb is_any (flat_map members xs)) eqn:Ea.
  { destruct m; reflexivity. }
  destruct (existsb is_unknown (flat_map members xs)) eqn:Eu.
  { destruct m; reflexivity. }
  destruct (normal_form_covers _ m Hm) as [b [Hb Hrel]].
  assert (Hone : forall k, assignable_fuel (S k) m b = true).
  { intros k. destruct Hrel;
      [now apply assignable_fuel_identical | now apply assignable_fuel_widens]. }
  destruct (nub _) as [|t [|t' l']] eqn:E.
  - destruct Hb.
  - destruct Hb as [->|[]]. apply Hone.
  - assert (Hex : existsb (fun b0 => assignable_fuel (S n) m b0) (t :: t' :: l') = true).
    { apply existsb_exists. exists b. split; [exact Hb|apply Hone]. }
    revert Hex. generalize (t :: t' :: l'). intros l Hex.
    destruct m; try discriminate Hs;
      cbn [assignable_fuel]; unfold assign_step at 1; cbn [identical];
      try exact Hex; reflexivity.
Qed.

Lemma member_assignable_Union_top (xs : list ty) (m : ty) :
  In m (flat_map members xs) -> assignable m (Union xs) = true.
Proof.
  intros Hm. unfold assignable.
  pose proof (size_pos m). pose proof (size_pos (Union xs)).
  destruct (size (Union xs) + size m) as [|[|n]] eqn:E; try lia.
  now apply member_assignable_Union.
Qed.

(** ** [Intersect] and [Except] of a shape with itself *)

Lemma keyof_TObj (ps : list (string * prop ty)) :
  keyof (TObj ps) = Union (map TStrLit (keys ps)).
Proof. unfold keyof, keys. cbn [props_of]. now rewrite map_map. Qed.

Lemma keys_are_keys (ks : list string) :
  Forall (fun t => is_key t = true) (map TStrLit ks).
Proof.
  apply Forall_forall. intros x Hx. apply in_map_iff in Hx.
  now destruct Hx as [k [<- _]].
Qed.

Lemma filter_is_key (l : list ty) :
  Forall (fun t => is_key t = true) l -> filter is_key l = l.
Proof.
  induction 1 as [|x l Hx _ IH]; simpl; [reflexivity|]. now rewrite Hx, IH.
Qed.

Lemma members_keyof (ps : list (string * prop ty)) :
  members (keyof (TObj ps)) = nub (map TStrLit (keys ps)).
Proof.
  rewrite keyof_TObj, members_Union_keyish.
  - now rewrite filter_is_key by apply keys_are_keys.
  - apply is_key_keyish, keys_are_keys.
Qed.

(** Every key of a shape is assignable to [keyof] of the shape. *)
Lemma key_assignable_keyof (ps : list (string * prop ty)) (t : ty) :
  In t (members (keyof (TObj ps))) -> assignable t (keyof (TObj ps)) = true.
Proof.
  intros H. rewrite members_keyof in H. rewrite keyof_TObj.
  apply member_assignable_Union_top.
  rewrite flat_members_keys by apply keys_are_keys.
  unfold nub in H. now destruct (nub_into_sub _ _ _ H) as [[]|H'].
Qed.

Lemma cond_key (t e x y : ty) :
  is_key t = true -> cond t e x y = if assignable t e then x else y.
Proof. destruct t; simpl; try discriminate; reflexivity. Qed.

Lemma Union_nevers (l : list ty) :
  Forall (fun t => t = TNever) l -> Union l = TNever.
Proof.
  intros H. unfold Union.
  assert (E : flat_map members l = []).
  { induction H as [|x l Hx _ IH]; simpl; [reflexivity|]. now rewrite Hx, IH. }
  now rewrite E.
Qed.

Lemma members_keyof_keys (ps : list (string * prop ty)) :
  Forall (fun t => is_key t = true) (members (keyof (TObj ps))).
Proof. rewrite members_keyof. apply nub_keys_all, keys_are_keys. Qed.

Lemma Extract_keyof_self (ps : list (string * prop ty)) :
  NoDup (keys ps) ->
  Extract (keyof (TObj ps)) (keyof (TObj ps)) = keyof (TObj ps).
Proof.
  intros Hnd. unfold Extract, distribute.
  rewrite (map_ext_in _ (fun t => t)).
  - rewrite map_id, members_keyof, nub_keys_nodup by assumption.
    symmetry. apply keyof_TObj.
  - intros t Ht. pose proof (members_keyof_keys ps) as Hk.
    rewrite Forall_forall in Hk. rewrite cond_key by now apply Hk.
    now rewrite key_assignable_keyof.
Qed.

Lemma Exclude_keyof_self (ps : list (string * prop ty)) :
  Exclude (keyof (TObj ps)) (keyof (TObj ps)) = TNever.
Proof.
  unfold Exclude, distribute. apply Union_nevers.
  apply Forall_forall. intros x Hx. apply in_map_iff in Hx.
  destruct Hx as [t [<- Ht]]. pose proof (members_keyof_keys ps) as Hk.
  rewrite Forall_forall in Hk. rewrite cond_key by now apply Hk.
  now rewrite key_assignable_keyof.
Qed.

Lemma lookup_nodup (ps : list (string * prop ty)) (kp : string * prop ty) :
  NoDup (keys ps) -> In kp ps -> lookup (fst kp) ps = Some (snd kp).
Proof.
  unfold lookup, keys. induction ps as [|q ps IH]; simpl; [contradiction|].
  intros Hnd Hin. inversion Hnd as [|? ? Hq Hnd']; subst.
  destruct Hin as [->|Hin].
  - now rewrite String.eqb_refl.
  - destruct (String.eqb (fst q) (fst kp)) eqn:E; [|now apply IH].
    apply String.eqb_eq in E. exfalso. apply Hq. rewrite E. now apply in_map.
Qed.

(** Picking every key of a shape gives the shape back. *)
Lemma Pick_all_keys (ps : list (string * prop ty)) (K : ty) :
  NoDup (keys ps) -> members K = map TStrLit (keys ps) ->
  Pick (TObj ps) K = TObj ps.
Proof.
  intros Hnd HK. unfold Pick, mapped_in. rewrite HK. cbn [props_of]. f_equal.
  assert (H : forall l, (forall kp, In kp l -> lookup (fst kp) ps = Some (snd kp)) ->
              flat_map
                (fun k =>
                   match k with
                   | TStrLit s =>
                       match lookup s ps with
                       | Some p =>
                           [(s, mkProp (index (TObj ps) k)
                                       (apply_mod Keep (optional p))
                                       (apply_mod Keep (readonly p)))]
                       | None =>
                           [(s, mkProp (index (TObj ps) k)
                                       (apply_mod Keep false) (apply_mod Keep false))]
                       end
                   | _ => []
                   end) (map TStrLit (keys l)) = l).
  { induction l as [|kp l IH]; intros Hl; [reflexivity|].
    cbn [keys map flat_map]. unfold keys in IH. rewrite IH by (intros; apply Hl; now right).
    cbn [index index1]. rewrite (Hl kp) by now left.
    destruct kp as [k [t o r]]. reflexivity. }
  apply H. intros kp Hkp. now apply lookup_nodup.
Qed.

(** C5. For every object shape [T] (its keys are distinct), [Intersect<T, T>]
    is [T] and [Except<T, T>] is the empty shape [{}]. *)
Theorem Intersect_Except_self (ps : list (string * prop ty)) :
  NoDup (keys ps) ->
  Intersect (TObj ps) (TObj ps) = TObj ps
  /\ Except (TObj ps) (TObj ps) = TObj [].
Proof.
  intros Hnd. split.
  - unfold Intersect. rewrite Extract_keyof_self by assumption.
    apply Pick_all_keys; [assumption|].
    now rewrite members_keyof, nub_keys_nodup.
  - unfold Except. now rewrite Exclude_keyof_self.
Qed.

Lemma Intersect_Except_self_witness :
  NoDup (keys (props_of A_person))
  /\ Intersect A_person A_person = A_person
  /\ Except A_person A_person = TObj [].
Proof.
  assert (H : NoDup (keys (props_of A_person))).
  { simpl. repeat constructor; simpl; intuition discriminate. }
  split; [exact H|]. exact (Intersect_Except_self (props_of A_person) H).
Defined.

(** ** [MutableByKeys] and [ReadOnlyByKeys] *)

Lemma Union_single_obj (ps : list (string * prop ty)) : Union [TObj ps] = TObj ps.
Proof. reflexivity. Qed.

Lemma Intersection_shapes (ps qs : list (string * prop ty)) :
  Intersection (TObj ps) (TObj qs) = inter1 (TObj ps) (TObj qs).
Proof. unfold Intersection. cbn [members map inter1]. apply Union_single_obj. Qed.


Lemma lookup_In (k : string) (ps : list (string * prop ty)) (p : prop ty) :
  lookup k ps = Some p -> In (k, p) ps.
Proof.
  unfold lookup. induction ps as [|[k' p'] ps IH]; simpl; [discriminate|].
  destruct (String.eqb k' k) eqn:E; simpl.
  - intros [= ->]. apply String.eqb_eq in E. subst. now left.
  - intros H. right. now apply IH.
Qed.

Lemma In_lookup (k : string) (ps : list (string * prop ty)) (p : prop ty) :
  In (k, p) ps -> exists q, lookup k ps = Some q.
Proof.
  unfold lookup. induction ps as [|[k' p'] ps IH]; simpl; [contradiction|].
  destruct (String.eqb k' k) eqn:E; simpl; [intros _; now eexists|].
  intros [[= -> ->]|H]; [now rewrite String.eqb_refl in E|now apply IH].
Qed.



(** ** [RequireAtLeastOne] on the example of the source *)


(** ** The recursion of the [Deep*] utilities *)

Lemma DeepPartial_TObj (ps : list (string * prop ty)) :
  DeepPartial (TObj ps)
  = TObj (map (fun kp => (fst kp,
                          mkProp (deep_template DeepPartial (ptype (snd kp)))
                                 true (readonly (snd kp)))) ps).
Proof. reflexivity. Qed.

Lemma DeepRequired_TObj (ps : list (string * prop ty)) :
  DeepRequired (TObj ps)
  = TObj (map (fun kp => (fst kp,
                          mkProp (deep_template DeepRequired (ptype (snd kp)))
                                 false (readonly (snd kp)))) ps).
Proof. reflexivity. Qed.

Lemma DeepReadOnly_TObj (ps : list (string * prop ty)) :
  DeepReadOnly (TObj ps)
  = TObj (map (fun kp => (fst kp,
                          mkProp (deep_template DeepReadOnly (ptype (snd kp)))
                                 (optional (snd kp)) true)) ps).
Proof. reflexivity. Qed.

Lemma DeepMutable_TObj (ps : list (string * prop ty)) :
  DeepMutable (TObj ps)
  = TObj (map (fun kp => (fst kp,
                          mkProp (deep_template DeepMutable (ptype (snd kp)))
                                 (optional (snd kp)) false)) ps).
Proof. reflexivity. Qed.

Lemma DeepPartial_unfold (t : ty) :
  DeepPartial t = mapped_keyof Keep Add (fun _ v => deep_template DeepPartial v) t.
Proof. destruct t; reflexivity. Qed.

Lemma DeepRequired_unfold (t : ty) :
  DeepRequired t = mapped_keyof Keep Remove (fun _ v => deep_template DeepRequired v) t.
Proof. destruct t; reflexivity. Qed.

Lemma DeepReadOnly_unfold (t : ty) :
  DeepReadOnly t = mapped_keyof Add Keep (fun _ v => deep_template DeepReadOnly v) t.
Proof. destruct t; reflexivity. Qed.

Lemma DeepMutable_unfold (t : ty) :
  DeepMutable t = mapped_keyof Remove Keep (fun _ v => deep_template DeepMutable v) t.
Proof. destruct t; reflexivity. Qed.

(** Where the value of a property is assignable to [object], the template
    is the recursive call. *)
Lemma deep_template_object (D : ty -> ty) (v : ty) :
  v <> TAny -> assignable v TObjectKw = true -> deep_template D v = D v.
Proof.
  intros Hv Ha. unfold deep_template, cond. rewrite Ha.
  destruct v; try reflexivity. now contradiction Hv.
Qed.

Lemma function_extends_object (ps : list ty) (r : ty) :
  assignable (TFun ps r) TObjectKw = true.
Proof. reflexivity. Qed.

Lemma array_extends_object (r : bool) (e : ty) :
  assignable (TArr r e) TObjectKw = true.
Proof. reflexivity. Qed.

(** C10. The [Deep*] utilities recurse into every property value that is
    assignable to [object]; array and function types are assignable to
    [object]; a function type has no key, so the recursive call gives the
    empty shape: [DeepPartial<{f: (x: string) => string}>] is [{f?: {}}]. *)
Theorem Deep_recursion_reaches_functions :
  (forall ps k v o r,
      In (k, mkProp v o r) ps -> v <> TAny -> assignable v TObjectKw = true ->
      In (k, mkProp (DeepPartial v) true r) (props_of (DeepPartial (TObj ps)))
      /\ In (k, mkProp (DeepRequired v) false r) (props_of (DeepRequired (TObj ps)))
      /\ In (k, mkProp (DeepReadOnly v) o true) (props_of (DeepReadOnly (TObj ps))))
  /\ (forall r e, assignable (TArr r e) TObjectKw = true)
  /\ (forall ps r, assignable (TFun ps r) TObjectKw = true)
  /\ (forall ps r, keyof (TFun ps r) = TNever /\ DeepPartial (TFun ps r) = TObj [])
  /\ (forall k ps r o m,
         DeepPartial (TObj [(k, mkProp (TFun ps r) o m)])
         = TObj [(k, mkProp (TObj []) true m)])
  /\ DeepPartial (TObj [("f", req (TFun [TString] TString))])
     = TObj [("f", opt (TObj []))].
Proof.
  split; [|repeat split; reflexivity].
  intros ps k v o r Hin Hv Ha.
  rewrite DeepPartial_TObj, DeepRequired_TObj, DeepReadOnly_TObj. cbn [props_of].
  repeat split; apply in_map_iff; exists (k, mkProp v o r);
    (split; [|assumption]); cbn [fst snd ptype optional readonly];
    now rewrite deep_template_object.
Qed.

(** ** The fuel of [assignable_fuel] *)

Lemma list_sum_In {A} (f : A -> nat) (l : list A) (x : A) :
  In x l -> f x <= list_sum (map f l).
Proof.
  induction l as [|y l IH]; simpl; [contradiction|].
  intros [->|H]; [lia|]. specialize (IH H). lia.
Qed.

Lemma forallb_ext_in {A} (f g : A -> bool) (l : list A) :
  (forall x, In x l -> f x = g x) -> forallb f l = forallb g l.
Proof.
  induction l as [|y l IH]; simpl; intros H; [reflexivity|].
  rewrite (H y) by now left. rewrite IH; [reflexivity|]. intros; apply H; now right.
Qed.

Lemma existsb_ext_in {A} (f g : A -> bool) (l : list A) :
  (forall x, In x l -> f x = g x) -> existsb f l = existsb g l.
Proof.
  induction l as [|y l IH]; simpl; intros H; [reflexivity|].
  rewrite (H y) by now left. rewrite IH; [reflexivity|]. intros; apply H; now right.
Qed.

Lemma tuple_rel_ext (r1 r2 : ty -> ty -> bool) (es1 es2 : list (ty * bool)) :
  (forall a b, In a es1 -> In b es2 -> r1 (fst a) (fst b) = r2 (fst a) (fst b)) ->
  tuple_rel r1 es1 es2 = tuple_rel r2 es1 es2.
Proof.
  revert es2. induction es1 as [|a es1 IH]; intros [|b es2] H; simpl; try reflexivity.
  rewrite (H a b) by now left. rewrite IH; [reflexivity|].
  intros; apply H; now right.
Qed.

Lemma params_rel_ext (r1 r2 : ty -> ty -> bool) (ps1 ps2 : list ty) :
  (forall a b, In a ps1 -> In b ps2 -> r1 a b = r2 a b /\ r1 b a = r2 b a) ->
  params_rel r1 ps1 ps2 = params_rel r2 ps1 ps2.
Proof.
  revert ps2. induction ps1 as [|a ps1 IH]; intros [|b ps2] H; simpl; try reflexivity.
  destruct (H a b) as [-> ->]; try now left. rewrite IH; [reflexivity|].
  intros; apply H; now right.
Qed.

Lemma lookup_size (k : string) (ps : list (string * prop ty)) (p : prop ty) :
  lookup k ps = Some p ->
  size (ptype p) <= list_sum (map (fun kp => size (ptype (snd kp))) ps).
Proof.
  intros H. apply lookup_In in H.
  exact (list_sum_In (fun kp : string * prop ty => size (ptype (snd kp))) ps (k, p) H).
Qed.

Ltac size_facts :=
  repeat match goal with
    | H : In ?x ?l |- _ =>
        lazymatch type of x with
        | ty => pose proof (list_sum_In size l x H)
        | (ty * bool)%type =>
            pose proof (list_sum_In (fun eo : ty * bool => size (fst eo)) l x H)
        | (string * prop ty)%type =>
            pose proof (list_sum_In
                          (fun kp : string * prop ty => size (ptype (snd kp))) l x H)
        end; revert H
    | H : lookup ?k ?l = Some ?p |- _ => pose proof (lookup_size k l p H); revert H
    end; intros.

Ltac stable_step R :=
  repeat first
    [ reflexivity
    | apply R; size_facts; cbn [size props_of] in *; lia
    | apply forallb_ext_in; intros
    | apply existsb_ext_in; intros
    | apply tuple_rel_ext; intros
    | apply params_rel_ext; intros; split
    | match goal with
      | |- context [match lookup ?k ?l with _ => _ end] => destruct (lookup k l) eqn:?
      end
    | apply (f_equal2 andb)
    | apply (f_equal2 orb) ].

(** One step only consults [rel] on smaller pairs of types. *)
Lemma assign_step_ext (r1 r2 : ty -> ty -> bool) (s t : ty) :
  (forall a b, size a + size b < size s + size t -> r1 a b = r2 a b) ->
  assign_step r1 s t = assign_step r2 s t.
Proof.
  intros R. unfold assign_step. destruct (identical s t); [reflexivity|].
  destruct s, t; cbn [size props_of] in R; try reflexivity; stable_step R.
Qed.

(** With enough fuel the result does not depend on the fuel. *)
Lemma assignable_fuel_stable (n m : nat) (s t : ty) :
  size s + size t <= n -> size s + size t <= m ->
  assignable_fuel n s t = assignable_fuel m s t.
Proof.
  revert m s t. induction n as [|n IH]; intros m s t Hn Hm.
  - pose proof (size_pos s). lia.
  - destruct m as [|m]; [pose proof (size_pos s); lia|].
    cbn [assignable_fuel]. apply assign_step_ext.
    intros a b Hab. apply IH; lia.
Qed.

Lemma assignable_enough (n : nat) (s t : ty) :
  size s + size t <= n -> assignable_fuel n s t = assignable s t.
Proof. intros H. unfold assignable. apply assignable_fuel_stable; lia. Qed.

(** The relation satisfies its own defining equation. *)
Lemma assignable_unfold (s t : ty) : assignable s t = assign_step assignable s t.
Proof.
  unfold assignable at 1. pose proof (size_pos s).
  destruct (size t + size s) as [|n] eqn:E; [lia|].
  cbn [assignable_fuel]. apply assign_step_ext.
  intros a b Hab. apply assignable_enough. lia.
Qed.

Lemma assignable_refl (t : ty) : assignable t t = true.
Proof. rewrite assignable_unfold. unfold assign_step. now rewrite identical_refl. Qed.

(** ** The normal form of a union is stable *)

Lemma covered_assignable (xs : list ty) (x : ty) :
  (forall m, In m (members x) -> In m (flat_map members xs)) ->
  assignable x (Union xs) = true.
Proof.
  induction x using ty_ind_nested; intros Hc;
    try (apply member_assignable_Union_top; apply Hc; now left).
  - rewrite assignable_unfold. unfold assign_step.
    destruct (identical TNever (Union xs)); [reflexivity|].
    destruct (Union xs); reflexivity.
  - rewrite assignable_unfold. unfold assign_step.
    destruct (identical (TUnion alts) (Union xs)); [reflexivity|].
    assert (Hall : forallb (fun a => assignable a (Union xs)) alts = true).
    { apply forallb_forall. intros a Ha. rewrite Forall_forall in H.
      apply (H a Ha). intros m Hm. apply Hc. simpl. apply in_flat_map. now exists a. }
    destruct (Union xs); try reflexivity; exact Hall.
Qed.

Lemma nub_into_fresh (l acc : list ty) :
  fresh acc l = true -> nub_into acc l = acc ++ l.
Proof.
  revert acc. induction l as [|x l IH]; intros acc H; cbn [nub_into fresh] in *.
  - now rewrite app_nil_r.
  - apply andb_prop in H. destruct H as [Hx Hl].
    destruct (existsb (identical x) acc); [discriminate|].
    rewrite IH by assumption. now rewrite <- List.app_assoc.
Qed.

Lemma nub_into_is_fresh (l acc : list ty) :
  exists l', nub_into acc l = acc ++ l' /\ fresh acc l' = true.
Proof.
  revert acc. induction l as [|x l IH]; intros acc; cbn [nub_into].
  - exists []. now rewrite app_nil_r.
  - destruct (existsb (identical x) acc) eqn:E; [apply IH|].
    destruct (IH (acc ++ [x])) as [l' [H1 H2]].
    exists (x :: l'). cbn [fresh]. rewrite E, H2, H1.
    now rewrite <- List.app_assoc.
Qed.

Lemma nub_idempotent (l : list ty) : nub (nub l) = nub l.
Proof.
  unfold nub. destruct (nub_into_is_fresh l []) as [l' [-> H]].
  cbn [app]. now apply nub_into_fresh.
Qed.

Lemma flat_members_simple (l : list ty) :
  Forall (fun t => simple t = true) l -> flat_map members l = l.
Proof.
  induction 1 as [|x l Hx _ IH]; simpl; [reflexivity|].
  rewrite IH. destruct x; simpl in *; try discriminate; reflexivity.
Qed.

Lemma flat_members_all_simple (l : list ty) :
  Forall (fun t => simple t = true) (flat_map members l).
Proof.
  apply Forall_forall. intros m Hm. apply in_flat_map in Hm.
  destruct Hm as [x [_ Hm]]. now apply (members_simple x).
Qed.

Lemma existsb_false_In {A} (f : A -> bool) (l : list A) (x : A) :
  existsb f l = false -> In x l -> f x = false.
Proof.
  intros H Hx. destruct (f x) eqn:E; [|reflexivity].
  rewrite <- H. symmetry. apply existsb_exists. now exists x.
Qed.

Lemma existsb_false_sub {A} (f : A -> bool) (l l' : list A) :
  existsb f l = false -> (forall x, In x l' -> In x l) -> existsb f l' = false.
Proof.
  intros H Hs. destruct (existsb f l') eqn:E; [|reflexivity].
  apply existsb_exists in E. destruct E as [x [Hx Hf]].
  now rewrite (existsb_false_In f l x H (Hs x Hx)) in Hf.
Qed.

(** Normalising a normal form changes nothing. *)
Lemma Union_idempotent (l : list ty) : Union [Union l] = Union l.
Proof.
  unfold Union at 2 3.
  set (flat := flat_map members l).
  destruct (existsb is_any flat) eqn:Ea; [reflexivity|].
  destruct (existsb is_unknown flat) eqn:Eu; [reflexivity|].
  set (kept := filter (fun t => negb (absorbed flat t)) flat).
  assert (Hsub : forall x, In x (nub kept) -> In x flat /\ absorbed flat x = false).
  { intros x Hx. unfold nub in Hx. destruct (nub_into_sub _ _ _ Hx) as [[]|Hk].
    apply filter_In in Hk. destruct Hk as [Hf Hab].
    split; [assumption|]. now destruct (absorbed flat x). }
  assert (Hsimple : Forall (fun t => simple t = true) (nub kept)).
  { apply Forall_forall. intros x Hx.
    pose proof (flat_members_all_simple l) as Hs. rewrite Forall_forall in Hs.
    apply Hs. now apply Hsub. }
  assert (Hnorm : Union (nub kept)
                  = match nub kept with [] => TNever | [t] => t | l' => TUnion l' end).
  { unfold Union. rewrite (flat_members_simple _ Hsimple).
    rewrite (existsb_false_sub _ _ _ Ea) by (intros; now apply Hsub).
    rewrite (existsb_false_sub _ _ _ Eu) by (intros; now apply Hsub).
    assert (Hf : filter (fun t => negb (absorbed (nub kept) t)) (nub kept) = nub kept).
    { apply forallb_filter_id. apply forallb_forall. intros x Hx.
      destruct (Hsub x Hx) as [_ Hab].
      destruct x; try reflexivity; simpl in *.
      - now rewrite (existsb_false_sub _ _ _ Hab) by (intros; now apply Hsub).
      - now rewrite (existsb_false_sub _ _ _ Hab) by (intros; now apply Hsub). }
    now rewrite Hf, nub_idempotent. }
  destruct (nub kept) as [|t [|t' l']] eqn:E.
  - reflexivity.
  - exact Hnorm.
  - transitivity (Union (t :: t' :: l')); [|exact Hnorm].
    assert (E1 : flat_map members [TUnion (t :: t' :: l')]
                 = flat_map members (t :: t' :: l')).
    { cbn [flat_map members]. now rewrite app_nil_r. }
    unfold Union. now rewrite E1.
Qed.

(** ** [DeepReadOnly] then [DeepMutable] *)

Lemma mapi_const {A B} (g : A -> B) (l : list A) (i : nat) :
  mapi (fun _ x => g x) i l = map g l.
Proof.
  revert i. induction l as [|x l IH]; intros i; simpl; [reflexivity|].
  now rewrite IH.
Qed.

Lemma forallb_map_comp {A B} (f : B -> bool) (g : A -> B) (l : list A) :
  forallb f (map g l) = forallb (fun x => f (g x)) l.
Proof. induction l as [|x l IH]; simpl; [reflexivity|]. now rewrite IH. Qed.

Lemma DeepReadOnly_TArr (r : bool) (e : ty) :
  DeepReadOnly (TArr r e) = TArr true (deep_template DeepReadOnly e).
Proof. reflexivity. Qed.

Lemma DeepMutable_TArr (r : bool) (e : ty) :
  DeepMutable (TArr r e) = TArr false (deep_template DeepMutable e).
Proof. reflexivity. Qed.

Lemma DeepReadOnly_TTuple (r : bool) (es : list (ty * bool)) :
  DeepReadOnly (TTuple r es)
  = TTuple true (map (fun eo => (deep_template DeepReadOnly (fst eo), snd eo)) es).
Proof. cbn [DeepReadOnly mapped_keyof apply_mod]. now rewrite mapi_const. Qed.

Lemma DeepMutable_TTuple (r : bool) (es : list (ty * bool)) :
  DeepMutable (TTuple r es)
  = TTuple false (map (fun eo => (deep_template DeepMutable (fst eo), snd eo)) es).
Proof. cbn [DeepMutable mapped_keyof apply_mod]. now rewrite mapi_const. Qed.

(** A value that is not assignable to [object] is left as it is. *)
Lemma deep_template_not_object (D : ty -> ty) (v : ty) :
  v <> TAny -> assignable v TObjectKw = false -> deep_template D v = v.
Proof.
  intros Hv Ha. unfold deep_template, cond. rewrite Ha.
  destruct v; try reflexivity. now contradiction Hv.
Qed.

(** A union is assignable to [object] when every alternative is. *)
Lemma assignable_union_object (alts : list ty) :
  assignable (TUnion alts) TObjectKw
  = forallb (fun a => assignable a TObjectKw) alts.
Proof. now rewrite assignable_unfold. Qed.

Lemma solid_object (t : ty) : solid t = true -> assignable t TObjectKw = true.
Proof. destruct t; try discriminate; reflexivity. Qed.

Lemma solids_object (l : list ty) :
  forallb solid l = true -> assignable (TUnion l) TObjectKw = true.
Proof.
  intros H. rewrite assignable_union_object. apply forallb_forall. intros a Ha.
  rewrite forallb_forall in H. now apply solid_object, H.
Qed.

(** Only a shape, an array or a tuple is identical to one. *)
Lemma identical_solid_l (s a : ty) :
  solid s = true -> identical s a = true -> solid a = true.
Proof. destruct s; try discriminate; destruct a; try discriminate; reflexivity. Qed.

Lemma identical_solid_r (s a : ty) :
  solid s = true -> identical a s = true -> solid a = true.
Proof. destruct s; try discriminate; destruct a; try discriminate; reflexivity. Qed.

Lemma forallb_false_ex {A} (f : A -> bool) (l : list A) :
  forallb f l = false -> exists x, In x l /\ f x = false.
Proof.
  induction l as [|x l IH]; [discriminate|]. cbn [forallb].
  destruct (f x) eqn:E.
  - intros H. destruct (IH H) as [y [Hy Hf]]. exists y. split; [now right|assumption].
  - intros _. exists x. split; [now left|assumption].
Qed.

(** A value left as it is by the utilities is identical neither to a shape,
    an array or a tuple, nor to a union of them. *)
Lemma inert_not_solid (v s : ty) :
  inert v = true -> solid s = true ->
  identical v s = false /\ identical s v = false.
Proof.
  intros Hv Hs. split.
  - destruct (identical v s) eqn:E; [|reflexivity].
    apply (identical_solid_r s v Hs) in E. destruct v; discriminate.
  - destruct (identical s v) eqn:E; [|reflexivity].
    apply (identical_solid_l s v Hs) in E. destruct v; discriminate.
Qed.

Lemma inert_not_solids (v : ty) (ys : list ty) :
  inert v = true -> forallb solid ys = true ->
  identical v (TUnion ys) = false /\ identical (TUnion ys) v = false.
Proof.
  intros Hv Hs. rewrite forallb_forall in Hs.
  destruct v; try (split; reflexivity).
  cbn [inert] in Hv. apply negb_true_iff in Hv.
  rewrite assignable_union_object in Hv.
  destruct (forallb_false_ex _ _ Hv) as [a [Ha Hna]].
  cbn [identical]. split.
  - destruct (forallb (fun x => existsb (fun y => identical x y) ys) alts) eqn:E;
      [|reflexivity].
    rewrite forallb_forall in E. specialize (E a Ha).
    apply existsb_exists in E. destruct E as [y [Hy Hi]].
    apply (identical_solid_r y a (Hs y Hy)) in Hi.
    now rewrite (solid_object a Hi) in Hna.
  - destruct (forallb (fun y => existsb (fun x => identical x y) ys) alts) eqn:E;
      [|apply andb_false_r].
    rewrite forallb_forall in E. specialize (E a Ha).
    apply existsb_exists in E. destruct E as [y [Hy Hi]].
    apply (identical_solid_l y a (Hs y Hy)) in Hi.
    now rewrite (solid_object a Hi) in Hna.
Qed.

Lemma solid_not_union (s : ty) (ys : list ty) :
  solid s = true ->
  identical s (TUnion ys) = false /\ identical (TUnion ys) s = false.
Proof. destruct s; try discriminate; split; reflexivity. Qed.

(** A union of two or more shapes, arrays and tuples, no two of them
    identical, is in normal form. *)
Lemma members_solid (l : list ty) : forallb solid l = true -> flat_map members l = l.
Proof.
  induction l as [|x l IH]; [reflexivity|]. cbn [forallb flat_map].
  intros H. apply andb_prop in H. destruct H as [Hx Hl].
  rewrite (IH Hl). destruct x; try discriminate; reflexivity.
Qed.

Lemma solid_normal (l : list ty) :
  several l = true -> forallb solid l = true -> fresh [] l = true ->
  Union l = TUnion l.
Proof.
  intros Hs Hl Hf. unfold Union. rewrite (members_solid l Hl).
  assert (E1 : existsb is_any l = false).
  { destruct (existsb is_any l) eqn:E; [|reflexivity].
    apply existsb_exists in E. destruct E as [x [Hx Hi]].
    rewrite forallb_forall in Hl. specialize (Hl x Hx). destruct x; discriminate. }
  assert (E2 : existsb is_unknown l = false).
  { destruct (existsb is_unknown l) eqn:E; [|reflexivity].
    apply existsb_exists in E. destruct E as [x [Hx Hi]].
    rewrite forallb_forall in Hl. specialize (Hl x Hx). destruct x; discriminate. }
  assert (E3 : filter (fun t => negb (absorbed l t)) l = l).
  { apply forallb_filter_id. apply forallb_forall. intros x Hx.
    rewrite forallb_forall in Hl. specialize (Hl x Hx). destruct x; try discriminate;
      reflexivity. }
  cbv zeta. rewrite E1, E2, E3. unfold nub. rewrite (nub_into_fresh l [] Hf).
  destruct l as [|a [|b l]]; try discriminate; reflexivity.
Qed.

(** How a [Deep*] utility treats each kind of value. *)
Section deep_kinds.
Variables (mr mo : modifier) (D : ty -> ty).
Hypothesis UD : forall t, D t = mapped_keyof mr mo (fun _ v => deep_template D v) t.

Lemma deep_template_inert (v : ty) : inert v = true -> deep_template D v = v.
Proof.
  destruct v; intros Hv; try discriminate Hv; try reflexivity.
  - unfold deep_template. cbn [cond is_any is_unknown orb]. rewrite UD. reflexivity.
  - rewrite (deep_template_object D TNever); [|discriminate|reflexivity].
    now rewrite UD.
  - rewrite (deep_template_object D TObjectKw); [|discriminate|reflexivity].
    now rewrite UD.
  - apply negb_true_iff in Hv. now apply deep_template_not_object.
  - apply negb_true_iff in Hv. now apply deep_template_not_object.
Qed.

Lemma deep_template_solid (v : ty) : solid v = true -> deep_template D v = D v.
Proof.
  intros Hv. apply deep_template_object; [|now apply solid_object].
  intros ->. discriminate.
Qed.

Lemma deep_solid (v : ty) : solid v = true -> solid (D v) = true.
Proof. rewrite UD. destruct v; try discriminate; reflexivity. Qed.

Lemma deep_template_union (alts : list ty) :
  assignable (TUnion alts) TObjectKw = true ->
  deep_template D (TUnion alts) = Union (map D alts).
Proof.
  intros Ha. rewrite deep_template_object; [|discriminate|assumption].
  rewrite UD. cbn [mapped_keyof]. f_equal. apply map_ext. intros a. symmetry. apply UD.
Qed.
End deep_kinds.

(** The three kinds of value of [plain]. *)
Lemma plain_kinds (v : ty) :
  plain v = true ->
  inert v = true
  \/ solid v = true
  \/ exists alts, v = TUnion alts
                  /\ several alts = true
                  /\ forallb (fun a => solid a && plain a) alts = true
                  /\ fresh [] alts = true.
Proof.
  destruct v; intros H; try discriminate H;
    try (left; reflexivity); try (right; left; reflexivity).
  - cbn [plain] in H. cbn [inert].
    destruct (assignable (TUnion alts) TObjectKw); [|now left].
    right. right. exists alts. cbn [negb orb] in H.
    apply andb_prop in H. destruct H as [H H3]. apply andb_prop in H.
    destruct H as [H1 H2]. repeat split; assumption.
  - left. exact H.
Qed.

Lemma solid_plain_alts (alts : list ty) (a : ty) :
  forallb (fun a => solid a && plain a) alts = true -> In a alts ->
  solid a = true /\ plain a = true.
Proof.
  intros H Ha. rewrite forallb_forall in H. now apply andb_prop, H.
Qed.

Lemma solid_alts (alts : list ty) :
  forallb (fun a => solid a && plain a) alts = true -> forallb solid alts = true.
Proof.
  intros H. apply forallb_forall. intros a Ha.
  now destruct (solid_plain_alts alts a H Ha).
Qed.

(** Alternatives that stay distinct under [f] stay fresh. *)
Lemma fresh_map (f : ty -> ty) (l acc : list ty) :
  (forall a b, In a (acc ++ l) -> In b (acc ++ l) ->
               identical (f a) (f b) = true -> identical a b = true) ->
  fresh acc l = true -> fresh (map f acc) (map f l) = true.
Proof.
  revert acc. induction l as [|x l IH]; intros acc Hinj Hf; [reflexivity|].
  cbn [fresh map] in *. apply andb_prop in Hf. destruct Hf as [Hx Hf].
  apply andb_true_intro. split.
  - apply negb_true_iff. apply negb_true_iff in Hx.
    destruct (existsb (identical (f x)) (map f acc)) eqn:E; [|reflexivity].
    apply existsb_exists in E. destruct E as [y [Hy Hi]].
    apply in_map_iff in Hy. destruct Hy as [a [<- Ha]].
    rewrite <- Hx. symmetry. apply existsb_exists. exists a. split; [assumption|].
    apply Hinj; [apply in_or_app; right; now left|apply in_or_app; now left|assumption].
  - replace (map f acc ++ [f x]) with (map f (acc ++ [x])) by apply map_app.
    apply IH; [|assumption]. intros a b Ha Hb.
    rewrite <- List.app_assoc in Ha, Hb. now apply Hinj.
Qed.

(** [DeepReadOnly] on a union the recursion enters: alternative by
    alternative, when it keeps the alternatives distinct. *)
Lemma DeepReadOnly_union (alts : list ty) :
  several alts = true ->
  forallb (fun a => solid a && plain a) alts = true ->
  fresh [] alts = true ->
  (forall a b, In a alts -> In b alts ->
      identical (DeepReadOnly a) (DeepReadOnly b) = true -> identical a b = true) ->
  deep_template DeepReadOnly (TUnion alts) = TUnion (map DeepReadOnly alts).
Proof.
  intros Hs Ha Hf Hinj. pose proof (solid_alts alts Ha) as Hsol.
  rewrite (deep_template_union Add Keep DeepReadOnly DeepReadOnly_unfold);
    [|now apply solids_object].
  apply solid_normal.
  - destruct alts as [|a [|b l]]; try discriminate; reflexivity.
  - rewrite forallb_map_comp. apply forallb_forall. intros a Hin.
    rewrite forallb_forall in Hsol.
    apply (deep_solid Add Keep DeepReadOnly DeepReadOnly_unfold), Hsol, Hin.
  - change (@nil ty) with (map DeepReadOnly []). now apply fresh_map.
Qed.

Lemma pair_sizes (l : list ty) (a b : ty) :
  In a l -> In b l -> a = b \/ size a + size b <= list_sum (map size l).
Proof.
  induction l as [|x l IH]; [contradiction|].
  change (list_sum (map size (x :: l))) with (size x + list_sum (map size l)).
  intros [->|Ha] [->|Hb].
  - now left.
  - right. pose proof (list_sum_In size l b Hb). lia.
  - right. pose proof (list_sum_In size l a Ha). lia.
  - destruct (IH Ha Hb) as [->|H]; [now left|right; lia].
Qed.

(** One inclusion of an identity test, read through two maps. *)
Lemma forallb_existsb_map {A B} (R R' : A -> B -> bool) (f : A -> A) (g : B -> B)
  (l : list A) (m : list B) :
  (forall a b, In a l -> In b m -> R' (f a) (g b) = true -> R a b = true) ->
  forallb (fun x => existsb (fun y => R' x y) (map g m)) (map f l) = true ->
  forallb (fun x => existsb (fun y => R x y) m) l = true.
Proof.
  intros HR H. rewrite forallb_map_comp in H. rewrite forallb_forall in H.
  apply forallb_forall. intros a Ha. specialize (H a Ha).
  apply existsb_exists in H. destruct H as [y [Hy Hi]].
  apply in_map_iff in Hy. destruct Hy as [b [<- Hb]].
  apply existsb_exists. exists b. split; [assumption|]. now apply HR.
Qed.

Lemma all2_map_impl {A} (R R' : A -> A -> bool) (f : A -> A) (l m : list A) :
  (forall a b, In a l -> In b m -> R' (f a) (f b) = true -> R a b = true) ->
  all2 R' (map f l) (map f m) = true -> all2 R l m = true.
Proof.
  revert m. induction l as [|x l IH]; intros [|y m] HR H; try discriminate H;
    [reflexivity|].
  cbn [map all2] in *. apply andb_prop in H. destruct H as [H1 H2].
  rewrite (HR x y) by (auto; now left). cbn [andb].
  apply IH; [|assumption]. intros a b Ha Hb. apply HR; now right.
Qed.

(** [DeepReadOnly] keeps two values of [plain] apart: values whose read-only
    versions are identical are identical.  By induction on the sizes. *)
Lemma DeepReadOnly_injective_sized (n : nat) :
  forall v w, size v + size w <= n -> plain v = true -> plain w = true ->
    identical (deep_template DeepReadOnly v) (deep_template DeepReadOnly w) = true ->
    identical v w = true.
Proof.
  induction n as [|n IH]; intros v w Hn Hv Hw H.
  { pose proof (size_pos v). lia. }
  assert (HU : forall alts u,
             size (TUnion alts) + size u <= S n ->
             several alts = true ->
             forallb (fun a => solid a && plain a) alts = true ->
             fresh [] alts = true ->
             deep_template DeepReadOnly (TUnion alts) = TUnion (map DeepReadOnly alts)).
  { intros alts u Hsz Hs Ha Hf. apply DeepReadOnly_union; try assumption.
    intros a b Hina Hinb Hi.
    destruct (solid_plain_alts alts a Ha Hina) as [Hsa Hpa].
    destruct (solid_plain_alts alts b Ha Hinb) as [Hsb Hpb].
    destruct (pair_sizes alts a b Hina Hinb) as [->|Hab]; [apply identical_refl|].
    apply IH; try assumption.
    - cbn [size] in Hsz. pose proof (size_pos u). lia.
    - now rewrite !deep_template_solid. }
  assert (HD : forall alts, forallb (fun a => solid a && plain a) alts = true ->
                            forallb solid (map DeepReadOnly alts) = true).
  { intros alts Ha. rewrite forallb_map_comp. apply forallb_forall. intros a Hin.
    apply (deep_solid Add Keep DeepReadOnly DeepReadOnly_unfold).
    now destruct (solid_plain_alts alts a Ha Hin). }
  destruct (plain_kinds v Hv) as [Iv|[Sv|[vs [-> [Sev [Fv Frv]]]]]];
    destruct (plain_kinds w Hw) as [Iw|[Sw|[ws [-> [Sew [Fw Frw]]]]]].
  - (* left as it is, both *)
    now rewrite !(deep_template_inert Add Keep DeepReadOnly DeepReadOnly_unfold) in H.
  - rewrite (deep_template_inert Add Keep DeepReadOnly DeepReadOnly_unfold) in H
      by assumption.
    rewrite deep_template_solid in H by assumption.
    pose proof (deep_solid Add Keep DeepReadOnly DeepReadOnly_unfold w Sw) as Sw'.
    destruct (inert_not_solid v _ Iv Sw') as [E _]. now rewrite E in H.
  - rewrite (deep_template_inert Add Keep DeepReadOnly DeepReadOnly_unfold) in H
      by assumption.
    rewrite (HU ws v) in H; try assumption; [|lia].
    destruct (inert_not_solids v _ Iv (HD ws Fw)) as [E _]. now rewrite E in H.
  - rewrite (deep_template_inert Add Keep DeepReadOnly DeepReadOnly_unfold w) in H
      by assumption.
    rewrite deep_template_solid in H by assumption.
    pose proof (deep_solid Add Keep DeepReadOnly DeepReadOnly_unfold v Sv) as Sv'.
    destruct (inert_not_solid w _ Iw Sv') as [_ E]. now rewrite E in H.
  - (* shapes, arrays and tuples *)
    rewrite !deep_template_solid in H by assumption.
    destruct v; try discriminate Sv; destruct w; try discriminate Sw;
      rewrite ?DeepReadOnly_TObj, ?DeepReadOnly_TArr, ?DeepReadOnly_TTuple in H;
      try discriminate H.
    + (* object shapes *)
      pose (same := fun kp kq : string * prop ty =>
              String.eqb (fst kp) (fst kq)
              && Bool.eqb (optional (snd kp)) (optional (snd kq))
              && Bool.eqb (readonly (snd kp)) (readonly (snd kq))
              && identical (ptype (snd kp)) (ptype (snd kq))).
      pose (g := fun kp : string * prop ty =>
              (fst kp, mkProp (deep_template DeepReadOnly (ptype (snd kp)))
                              (optional (snd kp)) true)).
      assert (Hsame : forall kp kq, In kp props -> In kq props0 ->
                 same (g kp) (g kq) = true -> same kp kq = true).
      { intros kp kq Hp Hq Hs. unfold same, g in *.
        cbn [fst snd ptype optional readonly] in Hs.
        apply andb_prop in Hs. destruct Hs as [Hs Hi].
        apply andb_prop in Hs. destruct Hs as [Hs _]. rewrite Hs.
        cbn [plain] in Hv, Hw. rewrite forallb_forall in Hv, Hw.
        destruct (andb_prop _ _ (Hv kp Hp)) as [Rp Pp].
        destruct (andb_prop _ _ (Hw kq Hq)) as [Rq Pq].
        apply negb_true_iff in Rp, Rq. rewrite Rp, Rq. cbn [Bool.eqb andb].
        apply IH; try assumption.
        cbn [size] in Hn.
        pose proof (list_sum_In (fun kp => size (ptype (snd kp))) props kp Hp).
        pose proof (list_sum_In (fun kp => size (ptype (snd kp))) props0 kq Hq).
        cbv beta in *. lia. }
      cbn [identical] in H |- *. rewrite !length_map in H.
      apply andb_prop in H. destruct H as [H H3].
      apply andb_prop in H. destruct H as [H1 H2]. rewrite H1. cbn [andb].
      apply andb_true_intro. split.
      * exact (forallb_existsb_map same same g g props props0 Hsame H2).
      * apply (forallb_existsb_map (fun kq kp => same kp kq) (fun kq kp => same kp kq)
                 g g props0 props); [|exact H3].
        intros kq kp Hq Hp. now apply Hsame.
    + (* arrays *)
      cbn [identical] in H |- *. cbn [plain] in Hv, Hw.
      destruct (andb_prop _ _ Hv) as [Rv Pv]. destruct (andb_prop _ _ Hw) as [Rw Pw].
      apply negb_true_iff in Rv, Rw. rewrite Rv, Rw. cbn [Bool.eqb andb] in H |- *.
      apply IH; try assumption. cbn [size] in Hn. lia.
    + (* tuples *)
      cbn [identical] in H |- *. cbn [plain] in Hv, Hw.
      destruct (andb_prop _ _ Hv) as [Rv Pv]. destruct (andb_prop _ _ Hw) as [Rw Pw].
      apply negb_true_iff in Rv, Rw. rewrite Rv, Rw. cbn [Bool.eqb andb] in H |- *.
      rewrite forallb_forall in Pv, Pw.
      apply (all2_map_impl
               (fun a b : ty * bool => Bool.eqb (snd a) (snd b) && identical (fst a) (fst b))
               (fun a b : ty * bool => Bool.eqb (snd a) (snd b) && identical (fst a) (fst b))
               (fun eo => (deep_template DeepReadOnly (fst eo), snd eo)));
        [|exact H].
      intros a b Ha Hb Hab. cbn [fst snd] in Hab.
      apply andb_prop in Hab. destruct Hab as [Ho Hi]. rewrite Ho. cbn [andb].
      apply IH; auto.
      cbn [size] in Hn.
      pose proof (list_sum_In (fun eo => size (fst eo)) elems a Ha).
      pose proof (list_sum_In (fun eo => size (fst eo)) elems0 b Hb).
      cbv beta in *. lia.
  - rewrite deep_template_solid in H by assumption.
    rewrite (HU ws v) in H; try assumption; [|lia].
    pose proof (deep_solid Add Keep DeepReadOnly DeepReadOnly_unfold v Sv) as Sv'.
    destruct (solid_not_union _ (map DeepReadOnly ws) Sv') as [E _]. now rewrite E in H.
  - rewrite (deep_template_inert Add Keep DeepReadOnly DeepReadOnly_unfold w) in H
      by assumption.
    rewrite (HU vs w) in H; try assumption.
    destruct (inert_not_solids w _ Iw (HD vs Fv)) as [_ E]. now rewrite E in H.
  - rewrite (deep_template_solid DeepReadOnly w) in H by assumption.
    rewrite (HU vs w) in H; try assumption.
    pose proof (deep_solid Add Keep DeepReadOnly DeepReadOnly_unfold w Sw) as Sw'.
    destruct (solid_not_union _ (map DeepReadOnly vs) Sw') as [_ E]. now rewrite E in H.
  - (* unions *)
    rewrite (HU vs (TUnion ws)), (HU ws (TUnion vs)) in H; try assumption; [|lia].
    cbn [identical] in H |- *. apply andb_prop in H. destruct H as [H1 H2].
    assert (Hinj : forall a b, In a vs -> In b ws ->
               identical (DeepReadOnly a) (DeepReadOnly b) = true -> identical a b = true).
    { intros a b Hina Hinb Hi.
      destruct (solid_plain_alts vs a Fv Hina) as [Hsa Hpa].
      destruct (solid_plain_alts ws b Fw Hinb) as [Hsb Hpb].
      apply IH; try assumption.
      - cbn [size] in Hn. pose proof (list_sum_In size vs a Hina).
        pose proof (list_sum_In size ws b Hinb). lia.
      - now rewrite !deep_template_solid. }
    apply andb_true_intro. split.
    + apply (forallb_existsb_map (fun x y => identical x y) (fun x y => identical x y)
               DeepReadOnly DeepReadOnly vs ws); assumption.
    + apply (forallb_existsb_map (fun y x => identical x y) (fun y x => identical x y)
               DeepReadOnly DeepReadOnly ws vs); [|assumption].
      intros b a Hb Ha. now apply Hinj.
Qed.

Lemma DeepReadOnly_injective (v w : ty) :
  plain v = true -> plain w = true ->
  identical (deep_template DeepReadOnly v) (deep_template DeepReadOnly w) = true ->
  identical v w = true.
Proof. apply (DeepReadOnly_injective_sized (size v + size w)). apply le_n. Qed.

(** The round trip on the value of a property or on an element type. *)
Lemma deep_template_round_trip (v : ty) :
  plain v = true ->
  deep_template DeepMutable (deep_template DeepReadOnly v) = v.
Proof.
  induction v using ty_ind_nested; intros Hp; try discriminate Hp;
    try reflexivity.
  - (* object shape *)
    rewrite (deep_template_object DeepReadOnly (TObj ps));
      [|discriminate|reflexivity].
    rewrite DeepReadOnly_TObj.
    rewrite deep_template_object; [|discriminate|reflexivity].
    rewrite DeepMutable_TObj, map_map. f_equal.
    rewrite <- (map_id ps) at 2. apply map_ext_in. intros [k [v o r]] Hin.
    cbn [fst snd ptype optional readonly].
    simpl in Hp. rewrite forallb_forall in Hp. specialize (Hp _ Hin).
    cbn [snd readonly ptype] in Hp. apply andb_prop in Hp. destruct Hp as [Hr Hv].
    rewrite Forall_forall in H. specialize (H _ Hin). cbn [snd ptype] in H.
    rewrite H by assumption. now destruct r.
  - (* array *)
    simpl in Hp. apply andb_prop in Hp. destruct Hp as [Hr He].
    rewrite (deep_template_object DeepReadOnly (TArr ro0 v));
      [|discriminate|reflexivity].
    rewrite DeepReadOnly_TArr.
    rewrite deep_template_object; [|discriminate|reflexivity].
    rewrite DeepMutable_TArr.
    rewrite IHv by assumption. now destruct ro0.
  - (* tuple *)
    simpl in Hp. apply andb_prop in Hp. destruct Hp as [Hr He].
    rewrite (deep_template_object DeepReadOnly (TTuple ro0 es));
      [|discriminate|reflexivity].
    rewrite DeepReadOnly_TTuple.
    rewrite deep_template_object; [|discriminate|reflexivity].
    rewrite DeepMutable_TTuple, map_map.
    destruct ro0; [discriminate|]. f_equal.
    rewrite <- (map_id es) at 2. apply map_ext_in. intros [v o] Hin.
    cbn [fst snd]. rewrite forallb_forall in He. specialize (He _ Hin).
    rewrite Forall_forall in H. specialize (H _ Hin). cbn [fst] in H, He.
    now rewrite H.
  - (* union *)
    destruct (plain_kinds (TUnion alts) Hp) as [Hi|[Hs|[l [[= <-] [Hs [Ha Hf]]]]]];
      [|discriminate Hs|].
    + (* not assignable to object: left as it is *)
      rewrite (deep_template_inert Add Keep DeepReadOnly DeepReadOnly_unfold)
        by assumption.
      now apply (deep_template_inert Remove Keep DeepMutable DeepMutable_unfold).
    + (* shapes, arrays and tuples: alternative by alternative *)
      pose proof (solid_alts alts Ha) as Hsol.
      rewrite DeepReadOnly_union; try assumption.
      * assert (Hsol' : forallb solid (map DeepReadOnly alts) = true).
        { rewrite forallb_map_comp. apply forallb_forall. intros a Hin.
          rewrite forallb_forall in Hsol.
          apply (deep_solid Add Keep DeepReadOnly DeepReadOnly_unfold), Hsol, Hin. }
        rewrite (deep_template_union Remove Keep DeepMutable DeepMutable_unfold)
          by now apply solids_object.
        rewrite map_map. rewrite (map_ext_in _ (fun a => a)).
        -- rewrite map_id. apply solid_normal; assumption.
        -- intros a Hin. destruct (solid_plain_alts alts a Ha Hin) as [Hsa Hpa].
           rewrite Forall_forall in H. specialize (H a Hin Hpa).
           rewrite (deep_template_solid DeepReadOnly a Hsa) in H.
           rewrite deep_template_solid in H; [exact H|].
           now apply (deep_solid Add Keep DeepReadOnly DeepReadOnly_unfold).
      * intros a b Hina Hinb Hi.
        destruct (solid_plain_alts alts a Ha Hina) as [Hsa Hpa].
        destruct (solid_plain_alts alts b Ha Hinb) as [Hsb Hpb].
        apply DeepReadOnly_injective; try assumption.
        now rewrite !deep_template_solid.
  - (* intersection, not assignable to object *)
    cbn [plain] in Hp. apply negb_true_iff in Hp.
    rewrite (deep_template_not_object DeepReadOnly (TInter v1 v2));
      [|discriminate|assumption].
    apply deep_template_not_object; [discriminate|assumption].
Qed.

(** C2, as the code has it.  Let [T] be an object shape none of whose keys
    is read-only and each of whose property values is
    (a) a type that both utilities leave as it is: [any], [unknown],
        [never], [object], a primitive or literal type, or a union or an
        intersection that is not assignable to [object]; or
    (b) an object shape none of whose keys is read-only, a mutable array or
        a mutable tuple, whose property values and element types are again
        of kind (a), (b) or (c); or
    (c) a union of two or more types of kind (b), no two of them identical.
    Then [DeepMutable<DeepReadOnly<T>>] is [T], nested object shapes and
    arrays included. *)
Theorem DeepMutable_DeepReadOnly_round_trip (ps : list (string * prop ty)) :
  plain (TObj ps) = true -> DeepMutable (DeepReadOnly (TObj ps)) = TObj ps.
Proof.
  intros Hp. pose proof (deep_template_round_trip (TObj ps) Hp) as H.
  rewrite (deep_template_object DeepReadOnly (TObj ps)) in H;
    [|discriminate|reflexivity].
  rewrite DeepReadOnly_TObj in *.
  rewrite deep_template_object in H; [exact H|discriminate|reflexivity].
Qed.

Lemma DeepMutable_DeepReadOnly_round_trip_witness :
  plain A_choice = true /\ DeepMutable (DeepReadOnly A_choice) = A_choice.
Proof.
  split; [reflexivity|].
  apply (DeepMutable_DeepReadOnly_round_trip (props_of A_choice)). reflexivity.
Defined.

(** C2 as stated fails: a read-only key of [T] comes back mutable, and a
    function-typed property value comes back as the empty shape. *)
Lemma DeepMutable_DeepReadOnly_not_round_trip :
  DeepMutable (DeepReadOnly (TObj [("a", ro TString)])) = TObj [("a", req TString)]
  /\ Equal (DeepMutable (DeepReadOnly (TObj [("a", ro TString)])))
           (TObj [("a", ro TString)]) = TBoolLit false
  /\ DeepMutable (DeepReadOnly (TObj [("f", req (TFun [] TString))]))
     = TObj [("f", req (TObj []))]
  /\ Equal (DeepMutable (DeepReadOnly (TObj [("f", req (TFun [] TString))])))
           (TObj [("f", req (TFun [] TString))]) = TBoolLit false
  /\ ~ (forall ps, DeepMutable (DeepReadOnly (TObj ps)) = TObj ps).
Proof.
  repeat split; try reflexivity.
  intros H. specialize (H [("f", req (TFun [] TString))]). discriminate H.
Qed.

(** ** [TupleUnion] *)

Lemma TupleUnion_distributes (T : ty) :
  TupleUnion T = Union (map TupleUnion_alt (members T)).
Proof. reflexivity. Qed.

Lemma TupleUnion_alt_array (e : ty) : TupleUnion_alt (TArr false e) = e.
Proof.
  unfold TupleUnion_alt, cond_infer, match_infer. cbn [infer_elem].
  now rewrite assignable_refl.
Qed.

Lemma TupleUnion_alt_tuple (es : list (ty * bool)) :
  TupleUnion_alt (TTuple false es) = Union (map fst es).
Proof.
  unfold TupleUnion_alt, cond_infer, match_infer. cbn [infer_elem].
  assert (H : assignable (TTuple false es) (TArr false (Union (map fst es))) = true).
  { rewrite assignable_unfold. unfold assign_step. cbn [identical orb negb andb].
    apply forallb_forall. intros eo Heo. apply covered_assignable.
    intros m Hm. apply in_flat_map. exists (fst eo). split; [now apply in_map|assumption]. }
  now rewrite H.
Qed.

Lemma TupleUnion_alt_other (t : ty) :
  not_array t = true -> TupleUnion_alt t = TNever.
Proof.
  intros H. unfold TupleUnion_alt, cond_infer, match_infer.
  destruct t; try discriminate H; cbn [infer_elem];
    rewrite assignable_unfold; unfold assign_step; cbn [identical];
    try reflexivity; simpl in H; subst; reflexivity.
Qed.

(** C7, as the code has it.  [TupleUnion<T>] is distributed over the
    alternatives of [T].  For a single mutable array or tuple type it is the
    union of the element types; for a single type that is no array it is
    [never]; for [any] it is [unknown]; and for the tuple ['a', 'b', 'c'] it
    is ['a' | 'b' | 'c']. *)
Theorem TupleUnion_by_alternative :
  (forall T, TupleUnion T = Union (map TupleUnion_alt (members T)))
  /\ (forall t, array_like t = true -> TupleUnion t = Union (element_types t))
  /\ (forall t, not_array t = true -> TupleUnion t = TNever)
  /\ TupleUnion TAny = TUnknown
  /\ TupleUnion (TTuple false [(TStrLit "a", false); (TStrLit "b", false);
                               (TStrLit "c", false)])
     = TUnion [TStrLit "a"; TStrLit "b"; TStrLit "c"].
Proof.
  split; [exact TupleUnion_distributes|]. split; [|split; [|split; reflexivity]].
  - intros t Ht. rewrite TupleUnion_distributes.
    destruct t; try discriminate Ht; simpl in Ht;
      destruct ro0; try discriminate Ht; cbn [members map element_types].
    + now rewrite TupleUnion_alt_array.
    + rewrite TupleUnion_alt_tuple. apply Union_idempotent.
  - intros t Ht. rewrite TupleUnion_distributes.
    assert (Hm : members t = [t]) by (destruct t; try discriminate Ht; reflexivity).
    rewrite Hm. cbn [map]. now rewrite TupleUnion_alt_other.
Qed.

(** C7 as stated fails on a union: [string[] | number] is not array-like, it
    is not assignable to an array type, and [TupleUnion] gives [string]. *)
Lemma TupleUnion_not_never_on_union :
  array_like (TUnion [TArr false TString; TNumber]) = false
  /\ assignable (TUnion [TArr false TString; TNumber]) (TArr false TAny) = false
  /\ TupleUnion (TUnion [TArr false TString; TNumber]) = TString
  /\ TupleUnion (TUnion [TArr false TString; TNumber]) <> TNever.
Proof. repeat split; try reflexivity. discriminate. Qed.

(** ** [Promisify] under its bound *)

Lemma identical_assignable (s t : ty) : identical s t = true -> assignable s t = true.
Proof. intros H. rewrite assignable_unfold. unfold assign_step. now rewrite H. Qed.


Lemma all2_params_rel (ps qs : list ty) :
  all2 identical ps qs = true -> params_rel assignable ps qs = true.
Proof.
  revert qs. induction ps as [|a ps IH]; intros [|b qs]; simpl; try discriminate;
    [reflexivity|].
  intros H. apply andb_prop in H. destruct H as [Ha Hl].
  now rewrite (identical_assignable a b Ha), IH.
Qed.

(** What an assignable function type gives: its parameters and its return
    type are related. *)
Lemma assignable_TFun (ps qs : list ty) (r r0 : ty) :
  assignable (TFun ps r) (TFun qs r0) = true
  <-> params_rel assignable ps qs = true /\ assignable r r0 = true.
Proof.
  rewrite assignable_unfold. unfold assign_step. cbn [identical].
  destruct (all2 identical ps qs && identical r r0) eqn:E.
  - apply andb_prop in E. destruct E as [E1 E2]. split; [intros _|reflexivity].
    split; [now apply all2_params_rel|now apply identical_assignable].
  - rewrite andb_true_iff. reflexivity.
Qed.







(** * Further properties of the utilities *)

(** ** Selecting keys *)

Lemma NoDup_filter_keys (pred : string -> bool) (ks : list string) :
  NoDup ks -> NoDup (filter pred ks).
Proof.
  induction 1 as [|k ks Hk _ IH]; simpl; [constructor|].
  destruct (pred k); [|assumption]. constructor; [|assumption].
  intros H. apply filter_In in H. now apply Hk.
Qed.

(** A union of keys and [never]s, one entry per key of a list without
    repetition: its alternatives are the selected keys, in order. *)
Lemma members_Union_select (pred : string -> bool) (ks : list string) :
  NoDup ks ->
  members (Union (map (fun k => if pred k then TStrLit k else TNever) ks))
  = map TStrLit (filter pred ks).
Proof.
  intros Hnd. rewrite members_Union_keyish.
  - assert (E : filter is_key (map (fun k => if pred k then TStrLit k else TNever) ks)
                = map TStrLit (filter pred ks)).
    { clear Hnd. induction ks as [|k ks IH]; simpl; [reflexivity|].
      destruct (pred k); simpl; now rewrite IH. }
    rewrite E. apply nub_keys_nodup. now apply NoDup_filter_keys.
  - apply Forall_forall. intros x Hx. apply in_map_iff in Hx.
    destruct Hx as [k [<- _]]. now destruct (pred k).
Qed.

(** A key is assignable to a union of keys exactly when it is one of them. *)
Lemma assignable_key_Union (k : string) (us : list string) :
  assignable (TStrLit k) (Union (map TStrLit us)) = existsb (String.eqb k) us.
Proof.
  destruct (existsb (String.eqb k) us) eqn:E.
  - apply existsb_exists in E. destruct E as [u [Hu Hk]].
    apply String.eqb_eq in Hk. subst u. apply member_assignable_Union_top.
    rewrite flat_members_keys by apply keys_are_keys. now apply in_map.
  - assert (Hne : forall b, In b (nub (map TStrLit us)) ->
                            assignable (TStrLit k) b = false).
    { intros b Hb. unfold nub in Hb. destruct (nub_into_sub _ _ _ Hb) as [[]|Hb'].
      apply in_map_iff in Hb'. destruct Hb' as [u [<- Hu]].
      pose proof (existsb_false_In _ _ u E Hu) as Hku.
      rewrite assignable_unfold. unfold assign_step. cbn [identical].
      now rewrite Hku. }
    rewrite (Union_keys _ (keys_are_keys us)).
    destruct (nub (map TStrLit us)) as [|t [|t' l']] eqn:En.
    + rewrite assignable_unfold. reflexivity.
    + apply Hne. now left.
    + rewrite assignable_unfold. unfold assign_step. cbn [identical].
      apply not_true_is_false. intros H. apply existsb_exists in H.
      destruct H as [b [Hb Hab]]. now rewrite (Hne b Hb) in Hab.
Qed.

Lemma has_key_keys (k : string) (qs : list (string * prop ty)) :
  has_key k qs = existsb (String.eqb k) (keys qs).
Proof.
  unfold has_key, keys. induction qs as [|q qs IH]; simpl; [reflexivity|].
  now rewrite IH, (String.eqb_sym (fst q) k).
Qed.

Lemma assignable_key_keyof (k : string) (qs : list (string * prop ty)) :
  assignable (TStrLit k) (keyof (TObj qs)) = has_key k qs.
Proof. now rewrite keyof_TObj, assignable_key_Union, has_key_keys. Qed.

Lemma members_keyof_nodup (ps : list (string * prop ty)) :
  NoDup (keys ps) -> members (keyof (TObj ps)) = map TStrLit (keys ps).
Proof. intros H. now rewrite members_keyof, nub_keys_nodup. Qed.

(** [Extract] and [Exclude] of the keys of a shape against a type: the keys
    that are, or are not, assignable to it. *)
Lemma members_Extract_keyof (ps : list (string * prop ty)) (U : ty) :
  NoDup (keys ps) ->
  members (Extract (keyof (TObj ps)) U)
  = map TStrLit (filter (fun k => assignable (TStrLit k) U) (keys ps)).
Proof.
  intros Hnd. unfold Extract, distribute.
  rewrite members_keyof_nodup, map_map by assumption.
  rewrite <- members_Union_select by assumption. reflexivity.
Qed.

Lemma members_Exclude_keyof (ps : list (string * prop ty)) (U : ty) :
  NoDup (keys ps) ->
  members (Exclude (keyof (TObj ps)) U)
  = map TStrLit (filter (fun k => negb (assignable (TStrLit k) U)) (keys ps)).
Proof.
  intros Hnd. unfold Exclude, distribute.
  rewrite members_keyof_nodup, map_map by assumption.
  rewrite <- members_Union_select by assumption.
  do 2 f_equal. apply map_ext. intros k. cbn [cond].
  now destruct (assignable (TStrLit k) U).
Qed.

(** Picking a selection of the keys of a shape keeps the selected
    properties, as they are. *)
Lemma Pick_filter (ps : list (string * prop ty)) (K : ty) (pred : string -> bool) :
  NoDup (keys ps) -> members K = map TStrLit (filter pred (keys ps)) ->
  Pick (TObj ps) K = TObj (filter (fun kp => pred (fst kp)) ps).
Proof.
  intros Hnd HK. unfold Pick, mapped_in. rewrite HK. cbn [props_of]. f_equal.
  assert (H : forall l, (forall kp, In kp l -> lookup (fst kp) ps = Some (snd kp)) ->
              flat_map
                (fun k =>
                   match k with
                   | TStrLit s =>
                       match lookup s ps with
                       | Some p =>
                           [(s, mkProp (index (TObj ps) k)
                                       (apply_mod Keep (optional p))
                                       (apply_mod Keep (readonly p)))]
                       | None =>
                           [(s, mkProp (index (TObj ps) k)
                                       (apply_mod Keep false) (apply_mod Keep false))]
                       end
                   | _ => []
                   end) (map TStrLit (filter pred (keys l)))
              = filter (fun kp => pred (fst kp)) l).
  { induction l as [|kp l IH]; intros Hl; [reflexivity|].
    cbn [keys map filter]. fold (keys l).
    destruct (pred (fst kp)) eqn:E; cbn [map flat_map].
    - rewrite IH by (intros; apply Hl; now right).
      cbn [index index1]. rewrite (Hl kp) by now left.
      destruct kp as [k [t o r]]. reflexivity.
    - apply IH. intros; apply Hl; now right. }
  apply H. intros kp Hkp. now apply lookup_nodup.
Qed.

(** ** [Intersect] and [Except] in general *)

Lemma Intersect_filter (ps qs : list (string * prop ty)) :
  NoDup (keys ps) ->
  Intersect (TObj ps) (TObj qs)
  = TObj (filter (fun kp => has_key (fst kp) qs) ps).
Proof.
  intros Hnd. unfold Intersect.
  apply (Pick_filter ps _ (fun k => has_key k qs) Hnd).
  rewrite members_Extract_keyof by assumption.
  f_equal. apply filter_ext. intros k. apply assignable_key_keyof.
Qed.

Lemma Except_filter (ps qs : list (string * prop ty)) :
  NoDup (keys ps) ->
  Except (TObj ps) (TObj qs)
  = TObj (filter (fun kp => negb (has_key (fst kp) qs)) ps).
Proof.
  intros Hnd. unfold Except.
  apply (Pick_filter ps _ (fun k => negb (has_key k qs)) Hnd).
  rewrite members_Exclude_keyof by assumption.
  f_equal. apply filter_ext. intros k. now rewrite assignable_key_keyof.
Qed.

Lemma lookup_filter (pred : string -> bool) (ps : list (string * prop ty)) (k : string) :
  lookup k (filter (fun kp => pred (fst kp)) ps)
  = if pred k then lookup k ps else None.
Proof.
  unfold lookup. induction ps as [|kp ps IH]; simpl; [now destruct (pred k)|].
  destruct (String.eqb (fst kp) k) eqn:E.
  - apply String.eqb_eq in E. rewrite <- E in *.
    destruct (pred (fst kp)) eqn:Ep; simpl.
    + now rewrite String.eqb_refl.
    + exact IH.
  - destruct (pred (fst kp)); simpl; [rewrite E|]; exact IH.
Qed.

(** X1. For shapes [T] (with distinct keys) and [U], [Intersect<T, U>] keeps
    exactly the properties of [T] whose key is a key of [U], in the order of
    [T], each with the type and the modifiers it has in [T]; of [U] only the
    keys count, and a key that [U] lacks is missing from the result. *)
Theorem Intersect_keeps_common_keys (ps qs : list (string * prop ty)) :
  NoDup (keys ps) ->
  Intersect (TObj ps) (TObj qs)
  = TObj (filter (fun kp => has_key (fst kp) qs) ps)
  /\ forall k, lookup k (props_of (Intersect (TObj ps) (TObj qs)))
               = if has_key k qs then lookup k ps else None.
Proof.
  intros Hnd. rewrite (Intersect_filter ps qs Hnd). split; [reflexivity|].
  intros k. cbn [props_of]. apply (lookup_filter (fun k => has_key k qs)).
Qed.

Lemma Intersect_keeps_common_keys_witness :
  NoDup (keys (props_of A_person))
  /\ Intersect A_person B_person = TObj [("name", req TString)].
Proof.
  assert (H : NoDup (keys (props_of A_person))).
  { simpl. repeat constructor; simpl; intuition discriminate. }
  split; [exact H|].
  exact (proj1 (Intersect_keeps_common_keys
                  (props_of A_person) (props_of B_person) H)).
Defined.

(** X2. For shapes [T] (with distinct keys) and [U], [Except<T, U>] keeps
    exactly the properties of [T] whose key is not a key of [U], as they are
    in [T]; a key of [U] is missing from the result. *)
Theorem Except_drops_common_keys (ps qs : list (string * prop ty)) :
  NoDup (keys ps) ->
  Except (TObj ps) (TObj qs)
  = TObj (filter (fun kp => negb (has_key (fst kp) qs)) ps)
  /\ forall k, lookup k (props_of (Except (TObj ps) (TObj qs)))
               = if has_key k qs then None else lookup k ps.
Proof.
  intros Hnd. rewrite (Except_filter ps qs Hnd). split; [reflexivity|].
  intros k. cbn [props_of].
  rewrite (lookup_filter (fun k => negb (has_key k qs))).
  now destruct (has_key k qs).
Qed.

Lemma Except_drops_common_keys_witness :
  NoDup (keys (props_of A_person))
  /\ Except A_person B_person = TObj [("age", req TNumber)].
Proof.
  assert (H : NoDup (keys (props_of A_person))).
  { simpl. repeat constructor; simpl; intuition discriminate. }
  split; [exact H|].
  exact (proj1 (Except_drops_common_keys
                  (props_of A_person) (props_of B_person) H)).
Defined.

Lemma NoDup_keys_filter (f : string * prop ty -> bool) (ps : list (string * prop ty)) :
  NoDup (keys ps) -> NoDup (keys (filter f ps)).
Proof.
  unfold keys. induction ps as [|kp ps IH]; simpl; intros H; [constructor|].
  inversion H as [|? ? Hk Hnd]; subst.
  destruct (f kp); simpl; [|now apply IH]. constructor; [|now apply IH].
  intros Hin. apply Hk. apply in_map_iff in Hin. destruct Hin as [x [Hx Hin]].
  apply filter_In in Hin. apply in_map_iff. exists x. tauto.
Qed.

Lemma filter_twice {A} (f : A -> bool) (l : list A) :
  filter f (filter f l) = filter f l.
Proof.
  induction l as [|x l IH]; simpl; [reflexivity|].
  destruct (f x) eqn:E; simpl; [rewrite E|]; now rewrite ?IH.
Qed.

Lemma filter_opposite {A} (f : A -> bool) (l : list A) :
  filter (fun x => negb (f x)) (filter f l) = []
  /\ filter f (filter (fun x => negb (f x)) l) = [].
Proof.
  induction l as [|x l [IH1 IH2]]; simpl; [now split|].
  destruct (f x) eqn:E; simpl; rewrite ?E; simpl; now split.
Qed.

(** X3. How the two compose, for a shape [T] with distinct keys: taking
    [Intersect] with [U] twice is taking it once, and nothing of
    [Intersect<T, U>] survives [Except] with [U], nor anything of
    [Except<T, U>] survives [Intersect] with [U]. *)
Theorem Intersect_Except_compose (ps qs : list (string * prop ty)) :
  NoDup (keys ps) ->
  Intersect (Intersect (TObj ps) (TObj qs)) (TObj qs) = Intersect (TObj ps) (TObj qs)
  /\ Except (Intersect (TObj ps) (TObj qs)) (TObj qs) = TObj []
  /\ Intersect (Except (TObj ps) (TObj qs)) (TObj qs) = TObj [].
Proof.
  intros Hnd.
  rewrite (Intersect_filter ps qs Hnd), (Except_filter ps qs Hnd).
  rewrite !Intersect_filter, Except_filter by now apply NoDup_keys_filter.
  rewrite filter_twice.
  destruct (filter_opposite (fun kp : string * prop ty => has_key (fst kp) qs) ps)
    as [-> ->].
  repeat split.
Qed.

Lemma Intersect_Except_compose_witness :
  NoDup (keys (props_of A_person))
  /\ Except (Intersect A_person B_person) B_person = TObj [].
Proof.
  assert (H : NoDup (keys (props_of A_person))).
  { simpl. repeat constructor; simpl; intuition discriminate. }
  split; [exact H|].
  exact (proj1 (proj2 (Intersect_Except_compose
                         (props_of A_person) (props_of B_person) H))).
Defined.

(** ** The sub-shapes picked by the key classifiers *)

Section classifier_exact.
Variables (mro mopt : modifier) (f : ty -> ty).
Hypothesis f_key : forall k, f (TStrLit k) = TStrLit k \/ f (TStrLit k) = TNever.

Lemma f_key_select (k : string) :
  f (TStrLit k) = if is_key (f (TStrLit k)) then TStrLit k else TNever.
Proof. destruct (f_key k) as [E|E]; now rewrite E. Qed.

(** With distinct keys, the classifier gives the selected keys in the order
    of the shape. *)
Lemma classifier_members_exact (ps : list (string * prop ty)) :
  NoDup (keys ps) ->
  members (index (mapped_keyof mro mopt (fun P _ => f P) (TObj ps)) (keyof (TObj ps)))
  = map TStrLit (filter (fun k => is_key (f (TStrLit k))) (keys ps)).
Proof.
  intros Hnd. rewrite keyof_TObj, (Union_keys _ (keys_are_keys (keys ps))).
  rewrite nub_keys_nodup by assumption. cbn [mapped_keyof].
  assert (Hix : forall k, In k (keys ps) ->
                  index1 (TObj (map (fun kp : string * prop ty =>
                                       (fst kp,
                                        mkProp (f (TStrLit (fst kp)))
                                               (apply_mod mopt (optional (snd kp)))
                                               (apply_mod mro (readonly (snd kp))))) ps))
                         (TStrLit k) = f (TStrLit k))
    by (intros k Hk; now apply index1_classifier).
  destruct (keys ps) as [|k [|k' ks]] eqn:E.
  - reflexivity.
  - cbn [map index filter]. rewrite Hix by now left.
    rewrite (f_key_select k) at 1. now destruct (is_key (f (TStrLit k))).
  - cbn [map]. unfold index.
    assert (Hm : members (TUnion (TStrLit k :: TStrLit k' :: map TStrLit ks))
                 = map TStrLit (k :: k' :: ks))
      by (apply (flat_members_keys (map TStrLit (k :: k' :: ks))), keys_are_keys).
    rewrite Hm, map_map.
    rewrite (map_ext_in _ (fun k0 => if is_key (f (TStrLit k0)) then TStrLit k0 else TNever)).
    + now apply members_Union_select.
    + intros k0 Hk0. rewrite Hix by assumption. apply f_key_select.
Qed.
End classifier_exact.

Lemma In_keys_lookup (k : string) (ps : list (string * prop ty)) :
  In k (keys ps) <-> exists p, lookup k ps = Some p.
Proof.
  split.
  - intros H. unfold keys in H. apply in_map_iff in H.
    destruct H as [[k' p] [<- Hin]]. now apply (In_lookup k' ps p).
  - intros [p Hp]. apply lookup_In in Hp. unfold keys.
    apply in_map_iff. now exists (k, p).
Qed.

(** The template of [PickRequiredKeys] and of [PickPartialKeys] answers with
    the optional marker of the key. *)
Lemma required_template (ps : list (string * prop ty)) (k : string) (p : prop ty)
  (x y : ty) :
  lookup k ps = Some p ->
  cond (TObj []) (Pick (TObj ps) (TStrLit k)) x y = if optional p then x else y.
Proof.
  intros H. unfold cond. now rewrite (empty_assignable_Pick ps k p H).
Qed.

(** The template of [PickReadOnlyKeys] and of [PickMutableKeys] answers with
    the read-only marker of the key. *)
Lemma readonly_template (ps : list (string * prop ty)) (k : string) (p : prop ty)
  (x y : ty) :
  lookup k ps = Some p ->
  cond (readonly_test (TObj ps) (TStrLit k)) (TBoolLit true) x y
  = if readonly p then x else y.
Proof.
  intros H. rewrite (readonly_test_marker ps k p H). now destruct (readonly p).
Qed.

(** X4. For every object shape [T] and every key [k]: [k] is in
    [PickRequiredKeys<T>] exactly when [T] declares [k] without the optional
    marker, and in [PickPartialKeys<T>] exactly when [T] declares it with the
    marker; a key that [T] lacks is in neither. *)
Theorem PickRequiredKeys_by_marker (ps : list (string * prop ty)) (k : string) :
  (In (TStrLit k) (members (PickRequiredKeys (TObj ps)))
   <-> exists p, lookup k ps = Some p /\ optional p = false)
  /\ (In (TStrLit k) (members (PickPartialKeys (TObj ps)))
      <-> exists p, lookup k ps = Some p /\ optional p = true).
Proof.
  split.
  - pose (f := fun P => cond (TObj []) (Pick (TObj ps) P) TNever P).
    change (PickRequiredKeys (TObj ps))
      with (index (mapped_keyof Keep Remove (fun P _ => f P) (TObj ps))
                  (keyof (TObj ps))).
    assert (Hf : forall s, f (TStrLit s) = TStrLit s \/ f (TStrLit s) = TNever).
    { intros s. unfold f, cond.
      destruct (assignable (TObj []) (Pick (TObj ps) (TStrLit s))); auto. }
    destruct (classifier_members Keep Remove f Hf ps) as [_ H].
    rewrite (H k), In_keys_lookup. unfold f. split.
    + intros [[p Hp] Hk]. exists p. split; [assumption|].
      rewrite (required_template ps k p _ _ Hp) in Hk.
      destruct (optional p); [discriminate|reflexivity].
    + intros [p [Hp Ho]]. split; [now exists p|].
      now rewrite (required_template ps k p _ _ Hp), Ho.
  - pose (f := fun P => cond (TObj []) (Pick (TObj ps) P) P TNever).
    change (PickPartialKeys (TObj ps))
      with (index (mapped_keyof Keep Remove (fun P _ => f P) (TObj ps))
                  (keyof (TObj ps))).
    assert (Hf : forall s, f (TStrLit s) = TStrLit s \/ f (TStrLit s) = TNever).
    { intros s. unfold f, cond.
      destruct (assignable (TObj []) (Pick (TObj ps) (TStrLit s))); auto. }
    destruct (classifier_members Keep Remove f Hf ps) as [_ H].
    rewrite (H k), In_keys_lookup. unfold f. split.
    + intros [[p Hp] Hk]. exists p. split; [assumption|].
      rewrite (required_template ps k p _ _ Hp) in Hk.
      destruct (optional p); [reflexivity|discriminate].
    + intros [p [Hp Ho]]. split; [now exists p|].
      now rewrite (required_template ps k p _ _ Hp), Ho.
Qed.

(** X5. For every object shape [T] and every key [k]: [k] is in
    [PickReadOnlyKeys<T>] exactly when [T] declares [k] read-only, and in
    [PickMutableKeys<T>] exactly when [T] declares it without the marker. *)
Theorem PickReadOnlyKeys_by_marker (ps : list (string * prop ty)) (k : string) :
  (In (TStrLit k) (members (PickReadOnlyKeys (TObj ps)))
   <-> exists p, lookup k ps = Some p /\ readonly p = true)
  /\ (In (TStrLit k) (members (PickMutableKeys (TObj ps)))
      <-> exists p, lookup k ps = Some p /\ readonly p = false).
Proof.
  split.
  - pose (f := fun P => cond (readonly_test (TObj ps) P) (TBoolLit true) P TNever).
    change (PickReadOnlyKeys (TObj ps))
      with (index (mapped_keyof Keep Keep (fun P _ => f P) (TObj ps))
                  (keyof (TObj ps))).
    assert (Hf : forall s, f (TStrLit s) = TStrLit s \/ f (TStrLit s) = TNever).
    { intros s. unfold f, readonly_test. rewrite cond_Equal_true.
      destruct (identical _ _); auto. }
    destruct (classifier_members Keep Keep f Hf ps) as [_ H].
    rewrite (H k), In_keys_lookup. unfold f. split.
    + intros [[p Hp] Hk]. exists p. split; [assumption|].
      rewrite (readonly_template ps k p _ _ Hp) in Hk.
      destruct (readonly p); [reflexivity|discriminate].
    + intros [p [Hp Ho]]. split; [now exists p|].
      now rewrite (readonly_template ps k p _ _ Hp), Ho.
  - pose (f := fun P => cond (readonly_test (TObj ps) P) (TBoolLit true) TNever P).
    change (PickMutableKeys (TObj ps))
      with (index (mapped_keyof Keep Keep (fun P _ => f P) (TObj ps))
                  (keyof (TObj ps))).
    assert (Hf : forall s, f (TStrLit s) = TStrLit s \/ f (TStrLit s) = TNever).
    { intros s. unfold f, readonly_test. rewrite cond_Equal_true.
      destruct (identical _ _); auto. }
    destruct (classifier_members Keep Keep f Hf ps) as [_ H].
    rewrite (H k), In_keys_lookup. unfold f. split.
    + intros [[p Hp] Hk]. exists p. split; [assumption|].
      rewrite (readonly_template ps k p _ _ Hp) in Hk.
      destruct (readonly p); [discriminate|reflexivity].
    + intros [p [Hp Ho]]. split; [now exists p|].
      now rewrite (readonly_template ps k p _ _ Hp), Ho.
Qed.

Lemma filter_keys_by_lookup (pred : string -> bool) (g : prop ty -> bool)
  (ps : list (string * prop ty)) :
  NoDup (keys ps) ->
  (forall k p, lookup k ps = Some p -> pred k = g p) ->
  filter (fun kp => pred (fst kp)) ps = filter (fun kp => g (snd kp)) ps.
Proof.
  intros Hnd H. apply filter_ext_in. intros kp Hkp.
  apply H. now apply lookup_nodup.
Qed.

(** X6. For every object shape [T] with distinct keys, [PickRequired<T>] is
    [T] without its optional properties and [PickPartial<T>] is [T] without
    its required properties; what is kept keeps its type, its markers and its
    place. *)
Theorem PickRequired_PickPartial_split (ps : list (string * prop ty)) :
  NoDup (keys ps) ->
  PickRequired (TObj ps) = TObj (filter (fun kp => negb (optional (snd kp))) ps)
  /\ PickPartial (TObj ps) = TObj (filter (fun kp => optional (snd kp)) ps).
Proof.
  intros Hnd. split.
  - pose (f := fun P => cond (TObj []) (Pick (TObj ps) P) TNever P).
    assert (Hf : forall s, f (TStrLit s) = TStrLit s \/ f (TStrLit s) = TNever).
    { intros s. unfold f, cond.
      destruct (assignable (TObj []) (Pick (TObj ps) (TStrLit s))); auto. }
    unfold PickRequired.
    rewrite (Pick_filter ps _ (fun k => is_key (f (TStrLit k))) Hnd).
    + f_equal.
      apply (filter_keys_by_lookup (fun k => is_key (f (TStrLit k)))
                                   (fun p => negb (optional p))); [assumption|].
      intros k p Hp. unfold f. rewrite (required_template ps k p _ _ Hp).
      now destruct (optional p).
    + exact (classifier_members_exact Keep Remove f Hf ps Hnd).
  - pose (f := fun P => cond (TObj []) (Pick (TObj ps) P) P TNever).
    assert (Hf : forall s, f (TStrLit s) = TStrLit s \/ f (TStrLit s) = TNever).
    { intros s. unfold f, cond.
      destruct (assignable (TObj []) (Pick (TObj ps) (TStrLit s))); auto. }
    unfold PickPartial.
    rewrite (Pick_filter ps _ (fun k => is_key (f (TStrLit k))) Hnd).
    + f_equal.
      apply (filter_keys_by_lookup (fun k => is_key (f (TStrLit k)))
                                   (fun p => optional p)); [assumption|].
      intros k p Hp. unfold f. rewrite (required_template ps k p _ _ Hp).
      now destruct (optional p).
    + exact (classifier_members_exact Keep Remove f Hf ps Hnd).
Qed.

Lemma PickRequired_PickPartial_split_witness :
  NoDup (keys (props_of A_optional))
  /\ PickPartial A_optional = TObj [("age", opt TNumber); ("gender", opt TNumber)].
Proof.
  assert (H : NoDup (keys (props_of A_optional))).
  { simpl. repeat constructor; simpl; intuition discriminate. }
  split; [exact H|].
  exact (proj2 (PickRequired_PickPartial_split (props_of A_optional) H)).
Defined.

(** X7. For every object shape [T] with distinct keys, [PickReadOnly<T>] is
    [T] without its mutable properties and [PickMutable<T>] is [T] without
    its read-only properties; what is kept keeps its type, its markers and
    its place. *)
Theorem PickReadOnly_PickMutable_split (ps : list (string * prop ty)) :
  NoDup (keys ps) ->
  PickReadOnly (TObj ps) = TObj (filter (fun kp => readonly (snd kp)) ps)
  /\ PickMutable (TObj ps) = TObj (filter (fun kp => negb (readonly (snd kp))) ps).
Proof.
  intros Hnd. split.
  - pose (f := fun P => cond (readonly_test (TObj ps) P) (TBoolLit true) P TNever).
    assert (Hf : forall s, f (TStrLit s) = TStrLit s \/ f (TStrLit s) = TNever).
    { intros s. unfold f, readonly_test. rewrite cond_Equal_true.
      destruct (identical _ _); auto. }
    unfold PickReadOnly.
    rewrite (Pick_filter ps _ (fun k => is_key (f (TStrLit k))) Hnd).
    + f_equal.
      apply (filter_keys_by_lookup (fun k => is_key (f (TStrLit k)))
                                   (fun p => readonly p)); [assumption|].
      intros k p Hp. unfold f. rewrite (readonly_template ps k p _ _ Hp).
      now destruct (readonly p).
    + exact (classifier_members_exact Keep Keep f Hf ps Hnd).
  - pose (f := fun P => cond (readonly_test (TObj ps) P) (TBoolLit true) TNever P).
    assert (Hf : forall s, f (TStrLit s) = TStrLit s \/ f (TStrLit s) = TNever).
    { intros s. unfold f, readonly_test. rewrite cond_Equal_true.
      destruct (identical _ _); auto. }
    unfold PickMutable.
    rewrite (Pick_filter ps _ (fun k => is_key (f (TStrLit k))) Hnd).
    + f_equal.
      apply (filter_keys_by_lookup (fun k => is_key (f (TStrLit k)))
                                   (fun p => negb (readonly p))); [assumption|].
      intros k p Hp. unfold f. rewrite (readonly_template ps k p _ _ Hp).
      now destruct (readonly p).
    + exact (classifier_members_exact Keep Keep f Hf ps Hnd).
Qed.

Lemma PickReadOnly_PickMutable_split_witness :
  NoDup (keys (props_of A_readonly))
  /\ PickReadOnly A_readonly = TObj [("name", ro TString)].
Proof.
  assert (H : NoDup (keys (props_of A_readonly))).
  { simpl. repeat constructor; simpl; intuition discriminate. }
  split; [exact H|].
  exact (proj1 (PickReadOnly_PickMutable_split (props_of A_readonly) H)).
Defined.

(** ** All keys *)

(** X8. For every object shape [T], [PickAllKeys<T>] is [keyof T]: the
    optional keys are there with the required ones, and the empty shape
    gives [never]. *)
Theorem PickAllKeys_is_keyof (ps : list (string * prop ty)) :
  PickAllKeys (TObj ps) = keyof (TObj ps)
  /\ (forall k, In (TStrLit k) (members (PickAllKeys (TObj ps))) <-> In k (keys ps))
  /\ PickAllKeys (TObj []) = TNever.
Proof.
  assert (E : PickAllKeys (TObj ps) = keyof (TObj ps)).
  { unfold PickAllKeys. cbn [mapped_keyof].
    rewrite keyof_TObj, (Union_keys _ (keys_are_keys (keys ps))).
    pose proof (nub_keys_all _ (keys_are_keys (keys ps))) as Hall.
    assert (Hix : forall t, In t (nub (map TStrLit (keys ps))) ->
                    index1 (TObj (map (fun kp : string * prop ty =>
                                         (fst kp,
                                          mkProp (TStrLit (fst kp))
                                                 (apply_mod Remove (optional (snd kp)))
                                                 (apply_mod Keep (readonly (snd kp))))) ps))
                           t = t).
    { intros t Ht. unfold nub in Ht. destruct (nub_into_sub _ _ _ Ht) as [[]|Ht'].
      apply in_map_iff in Ht'. destruct Ht' as [k [<- Hk]].
      exact (index1_classifier Keep Remove (fun P => P) ps k Hk). }
    pose proof (nub_idempotent (map TStrLit (keys ps))) as Hid.
    destruct (nub (map TStrLit (keys ps))) as [|t [|t' l']] eqn:En.
    - reflexivity.
    - inversion Hall as [|? ? Ht _]; subst.
      destruct t; simpl in Ht; try discriminate. cbn [index].
      apply Hix. now left.
    - unfold index.
      assert (Hm : members (TUnion (t :: t' :: l')) = t :: t' :: l')
        by (apply (flat_members_keys (t :: t' :: l')); assumption).
      rewrite Hm, (map_ext_in _ (fun x => x)) by (intros; now apply Hix).
      rewrite map_id, (Union_keys _ Hall). now rewrite Hid. }
  split; [exact E|]. split; [|reflexivity].
  intros k. rewrite E, members_keyof, nub_In_keys, in_map_iff. split.
  - now intros [k' [[= ->] Hk]].
  - intros Hk. now exists k.
Qed.

(** X9. For every object shape [T], [PickRequiredKeys<T>] and
    [PickPartialKeys<T>] have no key in common and together they are
    [PickAllKeys<T>]. *)
Theorem PickRequiredKeys_PickPartialKeys_partition (ps : list (string * prop ty)) :
  (forall t, ~ (In t (members (PickRequiredKeys (TObj ps)))
                /\ In t (members (PickPartialKeys (TObj ps)))))
  /\ (forall t, In t (members (PickAllKeys (TObj ps)))
                <-> In t (members (PickRequiredKeys (TObj ps)))
                    \/ In t (members (PickPartialKeys (TObj ps)))).
Proof.
  set (T := TObj ps).
  set (fr := fun P => cond (TObj []) (Pick T P) TNever P).
  set (fp := fun P => cond (TObj []) (Pick T P) P TNever).
  set (fa := fun P : ty => P).
  assert (Hx : forall s, (fr (TStrLit s) = TStrLit s /\ fp (TStrLit s) = TNever)
                         \/ (fr (TStrLit s) = TNever /\ fp (TStrLit s) = TStrLit s)).
  { intros s. unfold fr, fp, cond.
    destruct (assignable (TObj []) (Pick T (TStrLit s))); auto. }
  assert (Hfr : forall s, fr (TStrLit s) = TStrLit s \/ fr (TStrLit s) = TNever)
    by (intros s; destruct (Hx s); tauto).
  assert (Hfp : forall s, fp (TStrLit s) = TStrLit s \/ fp (TStrLit s) = TNever)
    by (intros s; destruct (Hx s); tauto).
  assert (Hfa : forall s, fa (TStrLit s) = TStrLit s \/ fa (TStrLit s) = TNever)
    by (intros s; now left).
  destruct (classifier_members Keep Remove fr Hfr ps) as [Kr Mr].
  destruct (classifier_members Keep Remove fp Hfp ps) as [Kp Mp].
  destruct (classifier_members Keep Remove fa Hfa ps) as [Ka Ma].
  change (index (mapped_keyof Keep Remove (fun P _ => fr P) (TObj ps)) (keyof (TObj ps)))
    with (PickRequiredKeys T) in Kr, Mr.
  change (index (mapped_keyof Keep Remove (fun P _ => fp P) (TObj ps)) (keyof (TObj ps)))
    with (PickPartialKeys T) in Kp, Mp.
  change (index (mapped_keyof Keep Remove (fun P _ => fa P) (TObj ps)) (keyof (TObj ps)))
    with (PickAllKeys T) in Ka, Ma.
  rewrite Forall_forall in Kr, Kp, Ka.
  assert (Hlit : forall t, is_key t = true -> exists s, t = TStrLit s).
  { intros t. destruct t; simpl; try discriminate. intros _. now eexists. }
  split.
  - intros t [H1 H2]. destruct (Hlit t (Kr t H1)) as [s ->].
    apply Mr in H1. apply Mp in H2.
    destruct (Hx s) as [[_ E]|[E _]]; [rewrite E in H2|rewrite E in H1];
      now destruct H1, H2.
  - intros t. split.
    + intros H. destruct (Hlit t (Ka t H)) as [s ->].
      apply Ma in H. destruct H as [H _].
      destruct (Hx s) as [[E _]|[_ E]]; [left; apply Mr|right; apply Mp]; tauto.
    + intros [H|H].
      * destruct (Hlit t (Kr t H)) as [s ->]. apply Mr in H. apply Ma.
        unfold fa. tauto.
      * destruct (Hlit t (Kp t H)) as [s ->]. apply Mp in H. apply Ma.
        unfold fa. tauto.
Qed.

(** ** The [ByKeys] utilities *)

Lemma lookup_mapped_in (U T : ty) (mro mopt : modifier) (f : ty -> ty) (k : string) :
  lookup k (props_of (mapped_in U T mro mopt f))
  = if selected U k
    then Some (match lookup k (props_of T) with
               | Some p => mkProp (f (TStrLit k)) (apply_mod mopt (optional p))
                                  (apply_mod mro (readonly p))
               | None => mkProp (f (TStrLit k)) (apply_mod mopt false)
                                (apply_mod mro false)
               end)
    else None.
Proof.
  unfold mapped_in, selected. cbn [props_of].
  induction (members U) as [|m l IH]; [reflexivity|].
  cbn [flat_map existsb].
  destruct m; cbn [app orb]; try exact IH.
  destruct (String.eqb s k) eqn:E.
  - apply String.eqb_eq in E. subst s. cbn [orb].
    destruct (lookup k (props_of T)); unfold lookup; cbn [app find fst];
      rewrite String.eqb_refl; reflexivity.
  - cbn [orb]. rewrite <- IH.
    destruct (lookup s (props_of T)); unfold lookup; cbn [app find fst];
      rewrite E; reflexivity.
Qed.

Lemma selected_In (U : ty) (k : string) :
  selected U k = true <-> In (TStrLit k) (members U).
Proof.
  unfold selected. rewrite existsb_exists. split.
  - intros [m [Hm Hk]]. destruct m; try discriminate.
    apply String.eqb_eq in Hk. now subst.
  - intros H. exists (TStrLit k). split; [assumption|apply String.eqb_refl].
Qed.

(** A property of the left shape, merged in the intersection. *)
Lemma lookup_inter1_left (ps qs : list (string * prop ty)) (k : string) (p : prop ty) :
  lookup k ps = Some p ->
  lookup k (props_of (inter1 (TObj ps) (TObj qs)))
  = Some (match lookup k qs with
          | Some q => mkProp (Intersection (ptype p) (ptype q))
                             (optional p && optional q) (readonly p || readonly q)
          | None => p
          end).
Proof.
  cbn [inter1 props_of]. generalize (filter (fun kq => negb (has_key (fst kq) ps)) qs).
  intros rest. unfold lookup at 1 2.
  induction ps as [|kp ps IH]; simpl; [discriminate|].
  destruct (String.eqb (fst kp) k) eqn:E.
  - intros [= <-]. apply String.eqb_eq in E. subst k.
    destruct (lookup (fst kp) qs) as [q|]; simpl; now rewrite String.eqb_refl.
  - intros H. destruct (lookup (fst kp) qs) as [q|]; simpl; rewrite E; now apply IH.
Qed.

(** X10. For every object shape [T], every [U] and every key [k] of [T]: in
    [RequiredByKeys<T, U>] the key is required when it is one of [U] and is
    the property of [T], untouched, when it is not; its read-only marker is
    the one of [T], and its type is [T[k] & T[k]]. *)
Theorem RequiredByKeys_markers (ps : list (string * prop ty)) (U : ty)
  (k : string) (p : prop ty) :
  lookup k ps = Some p ->
  lookup k (props_of (RequiredByKeys (TObj ps) U))
  = Some (if selected U k
          then mkProp (Intersection (ptype p) (ptype p)) false (readonly p)
          else p).
Proof.
  intros Hp. unfold RequiredByKeys.
  set (M := mapped_in U (TObj ps) Keep Remove (fun P => index (TObj ps) P)).
  assert (HM : M = TObj (props_of M)) by reflexivity.
  rewrite HM, Intersection_shapes, (lookup_inter1_left ps (props_of M) k p Hp).
  unfold M. rewrite lookup_mapped_in. cbn [props_of]. rewrite Hp.
  destruct (selected U k); [|reflexivity].
  cbn [ptype optional readonly apply_mod index index1]. rewrite Hp.
  now rewrite andb_false_r, orb_diag.
Qed.

Lemma RequiredByKeys_markers_witness :
  lookup "age" (props_of A_optional) = Some (opt TNumber)
  /\ lookup "age" (props_of (RequiredByKeys A_optional (TStrLit "age")))
     = Some (req TNumber).
Proof.
  split; [reflexivity|].
  exact (RequiredByKeys_markers (props_of A_optional) (TStrLit "age")
                                "age" (opt TNumber) eq_refl).
Defined.

(** X11. For every object shape [T], every [U] and every key [k] of [T]:
    [PartialByKeys<T, U>] gives [k] the optional marker and the read-only
    marker it has in [T], whether [k] is one of [U] or not.  The intersection
    with the optional copy makes no key optional: a required key of [T] stays
    required. *)
Theorem PartialByKeys_markers (ps : list (string * prop ty)) (U : ty)
  (k : string) (p : prop ty) :
  lookup k ps = Some p ->
  lookup k (props_of (PartialByKeys (TObj ps) U))
  = Some (if selected U k
          then mkProp (Intersection (ptype p) (ptype p)) (optional p) (readonly p)
          else p).
Proof.
  intros Hp. unfold PartialByKeys.
  set (M := mapped_in U (TObj ps) Keep Add (fun P => index (TObj ps) P)).
  assert (HM : M = TObj (props_of M)) by reflexivity.
  rewrite HM, Intersection_shapes, (lookup_inter1_left ps (props_of M) k p Hp).
  unfold M. rewrite lookup_mapped_in. cbn [props_of]. rewrite Hp.
  destruct (selected U k); [|reflexivity].
  cbn [ptype optional readonly apply_mod index index1]. rewrite Hp.
  now rewrite andb_true_r, orb_diag.
Qed.

Lemma PartialByKeys_markers_witness :
  lookup "name" (props_of A_person) = Some (req TString)
  /\ lookup "name" (props_of (PartialByKeys A_person (TStrLit "name")))
     = Some (req TString).
Proof.
  split; [reflexivity|].
  exact (PartialByKeys_markers (props_of A_person) (TStrLit "name")
                               "name" (req TString) eq_refl).
Defined.

(** X12. For every object shape [T], every [U] and every key [k] of [T]:
    [ReadOnlyByKeys<T, U>] has the property [k], with the optional marker it
    has in [T]; a key that is read-only in [T] is read-only in the result;
    when [k] is one of [U] its type is [T[k] & T[k]], and when it is not, the
    property is that of [T], untouched.  (Whether a key of [U] that is
    mutable in [T] becomes read-only is the compiler's rule for the markers
    of an intersection; the statement does not rest on it.) *)
Theorem ReadOnlyByKeys_markers (ps : list (string * prop ty)) (U : ty)
  (k : string) (p : prop ty) :
  lookup k ps = Some p ->
  exists r, lookup k (props_of (ReadOnlyByKeys (TObj ps) U)) = Some r
            /\ optional r = optional p
            /\ (readonly p = true -> readonly r = true)
            /\ (selected U k = true -> ptype r = Intersection (ptype p) (ptype p))
            /\ (selected U k = false -> r = p).
Proof.
  intros Hp. unfold ReadOnlyByKeys.
  set (M := mapped_in U (TObj ps) Add Keep (fun P => index (TObj ps) P)).
  assert (HM : M = TObj (props_of M)) by reflexivity.
  rewrite HM, Intersection_shapes, (lookup_inter1_left ps (props_of M) k p Hp).
  unfold M. rewrite lookup_mapped_in. cbn [props_of]. rewrite Hp.
  eexists. split; [reflexivity|].
  destruct (selected U k).
  - cbn [ptype optional readonly apply_mod index index1]. rewrite Hp.
    repeat split; try discriminate.
    + apply andb_diag.
    + intros _. apply orb_true_r.
  - repeat split; try discriminate; auto.
Qed.

Lemma ReadOnlyByKeys_markers_witness :
  lookup "name" (props_of A_readonly) = Some (ro TString)
  /\ exists r, lookup "name" (props_of (ReadOnlyByKeys A_readonly (TStrLit "name")))
               = Some r
               /\ optional r = false
               /\ (true = true -> readonly r = true)
               /\ (true = true -> ptype r = TString)
               /\ (true = false -> r = ro TString).
Proof.
  split; [reflexivity|].
  exact (ReadOnlyByKeys_markers (props_of A_readonly) (TStrLit "name")
                                "name" (ro TString) eq_refl).
Defined.

(** ** Intersecting a shape with a part of itself *)

Lemma nodupb_NoDup (ks : list string) : nodupb ks = true -> NoDup ks.
Proof.
  induction ks as [|k ks IH]; simpl; intros H; [constructor|].
  apply andb_prop in H. destruct H as [Hk Hks]. constructor; [|now apply IH].
  intros Hin. apply negb_true_iff in Hk.
  pose proof (existsb_false_In _ _ k Hk Hin) as E. now rewrite String.eqb_refl in E.
Qed.

Lemma Union_single_simple (a : ty) : simple a = true -> Union [a] = a.
Proof. destruct a; try discriminate; reflexivity. Qed.

Lemma atom_simple (a : ty) : atom a = true -> simple a = true.
Proof. destruct a; try discriminate; reflexivity. Qed.

Lemma members_simple_self (a : ty) : simple a = true -> members a = [a].
Proof. destruct a; try discriminate; reflexivity. Qed.

Lemma lookup_has_key (k : string) (ps : list (string * prop ty)) (p : prop ty) :
  lookup k ps = Some p -> has_key k ps = true.
Proof.
  intros H. apply lookup_In in H. unfold has_key. apply existsb_exists.
  exists (k, p). split; [assumption|apply String.eqb_refl].
Qed.

Lemma filter_none {A} (f : A -> bool) (l : list A) :
  (forall x, In x l -> f x = false) -> filter f l = [].
Proof.
  induction l as [|x l IH]; simpl; intros H; [reflexivity|].
  rewrite (H x) by now left. apply IH. intros; apply H; now right.
Qed.

(** The intersection of a shape with a shape made of some of its properties,
    with other markers: the types stay, the markers are merged. *)
Lemma inter1_sub_shape (ps qs : list (string * prop ty)) :
  NoDup (keys ps) ->
  (forall kp, In kp ps ->
              simple (ptype (snd kp)) = true
              /\ inter1 (ptype (snd kp)) (ptype (snd kp)) = ptype (snd kp)) ->
  (forall k q, lookup k qs = Some q ->
               exists p, lookup k ps = Some p /\ ptype q = ptype p) ->
  inter1 (TObj ps) (TObj qs)
  = TObj (map (fun kp =>
                 match lookup (fst kp) qs with
                 | Some q => (fst kp,
                              mkProp (ptype (snd kp))
                                     (optional (snd kp) && optional q)
                                     (readonly (snd kp) || readonly q))
                 | None => kp
                 end) ps).
Proof.
  intros Hnd Hat Hsub. cbn [inter1]. f_equal.
  assert (Hrest : filter (fun kq => negb (has_key (fst kq) ps)) qs = []).
  { apply filter_none. intros [k q] Hin. cbn [fst].
    destruct (In_lookup k qs q Hin) as [q' Hq'].
    destruct (Hsub _ _ Hq') as [p [Hp _]].
    now rewrite (lookup_has_key k ps p Hp). }
  rewrite Hrest, app_nil_r. apply map_ext_in. intros kp Hkp.
  destruct (lookup (fst kp) qs) as [q|] eqn:Eq; [|reflexivity].
  destruct (Hsub _ _ Eq) as [p [Hp Hpq]].
  rewrite (lookup_nodup ps kp Hnd Hkp) in Hp. injection Hp as <-.
  destruct (Hat kp Hkp) as [Hs Hi].
  rewrite Hpq, (members_simple_self _ Hs). cbn [map].
  now rewrite Hi, (Union_single_simple _ Hs).
Qed.

Lemma merge_self (ps qs : list (string * prop ty)) :
  (forall kp q, In kp ps -> lookup (fst kp) qs = Some q -> q = snd kp) ->
  map (fun kp : string * prop ty =>
         match lookup (fst kp) qs with
         | Some q => (fst kp,
                      mkProp (ptype (snd kp))
                             (optional (snd kp) && optional q)
                             (readonly (snd kp) || readonly q))
         | None => kp
         end) ps = ps.
Proof.
  intros H. rewrite <- (map_id ps) at 2. apply map_ext_in. intros kp Hkp.
  destruct (lookup (fst kp) qs) as [q|] eqn:E; [|reflexivity].
  rewrite (H kp q Hkp E). destruct kp as [k [v o r]]. cbn [fst snd ptype optional readonly].
  now rewrite andb_diag, orb_diag.
Qed.

(** A type without union is its own intersection with itself. *)
Lemma inter1_self (v : ty) : atom v = true -> inter1 v v = v.
Proof.
  induction v using ty_ind_nested; intros Ha; try discriminate Ha;
    try (cbn [inter1]; now rewrite identical_refl).
  cbn [atom] in Ha. apply andb_prop in Ha. destruct Ha as [Hnd Hall].
  apply nodupb_NoDup in Hnd. rewrite forallb_forall in Hall.
  rewrite Forall_forall in H.
  rewrite inter1_sub_shape.
  - f_equal. apply merge_self. intros kp q Hkp Hq.
    rewrite (lookup_nodup ps kp Hnd Hkp) in Hq. now injection Hq.
  - exact Hnd.
  - intros kp Hkp. split; [apply atom_simple|apply H]; auto.
  - intros k q Hq. now exists q.
Qed.

Lemma Intersection_self (v : ty) : atom v = true -> Intersection v v = v.
Proof.
  intros Ha. unfold Intersection.
  rewrite (members_simple_self _ (atom_simple _ Ha)). cbn [map].
  now rewrite (inter1_self _ Ha), (Union_single_simple _ (atom_simple _ Ha)).
Qed.

(** ** [UnionOmit] *)



(** ** [Weaken] *)



(** ** [RequireAtLeastOne] in general *)










(** ** [RequireAtLeastOneByKeys] with every key *)





(** ** Composing the [Deep*] utilities *)

Section deep_compose.
Variables (r1 o1 r2 o2 r3 o3 : modifier) (D1 D2 D3 : ty -> ty).
Hypothesis U1 : forall t, D1 t = mapped_keyof r1 o1 (fun _ v => deep_template D1 v) t.
Hypothesis U2 : forall t, D2 t = mapped_keyof r2 o2 (fun _ v => deep_template D2 v) t.
Hypothesis U3 : forall t, D3 t = mapped_keyof r3 o3 (fun _ v => deep_template D3 v) t.
Hypothesis Cr : forall b, apply_mod r2 (apply_mod r1 b) = apply_mod r3 b.
Hypothesis Co : forall b, apply_mod o2 (apply_mod o1 b) = apply_mod o3 b.

Lemma deep_template_compose (v : ty) :
  no_object_union v = true ->
  deep_template D2 (deep_template D1 v) = deep_template D3 v.
Proof.
  induction v using ty_ind_nested; intros Hok; try reflexivity.
  - (* any *)
    unfold deep_template. cbn [cond is_any is_unknown orb].
    rewrite U1, U3. cbn [mapped_keyof]. cbn. unfold deep_template.
    cbn [cond is_any is_unknown orb]. now rewrite U2.
  - (* never *)
    rewrite (deep_template_object D1 TNever); [|discriminate|reflexivity].
    rewrite (deep_template_object D3 TNever); [|discriminate|reflexivity].
    rewrite U1, U3. cbn [mapped_keyof].
    rewrite (deep_template_object D2 TNever); [|discriminate|reflexivity].
    now rewrite U2.
  - (* object *)
    rewrite (deep_template_object D1 TObjectKw); [|discriminate|reflexivity].
    rewrite (deep_template_object D3 TObjectKw); [|discriminate|reflexivity].
    rewrite U1, U3. cbn [mapped_keyof].
    rewrite (deep_template_object D2 TObjectKw); [|discriminate|reflexivity].
    now rewrite U2.
  - (* object shape *)
    rewrite (deep_template_object D1 (TObj ps)); [|discriminate|reflexivity].
    rewrite (deep_template_object D3 (TObj ps)); [|discriminate|reflexivity].
    rewrite U1, U3. cbn [mapped_keyof].
    rewrite deep_template_object; [|discriminate|reflexivity].
    rewrite U2. cbn [mapped_keyof]. rewrite map_map. f_equal.
    apply map_ext_in. intros kp Hkp. cbn [fst snd ptype optional readonly].
    cbn [no_object_union] in Hok. rewrite forallb_forall in Hok.
    rewrite Forall_forall in H. rewrite (H kp Hkp (Hok kp Hkp)).
    now rewrite Cr, Co.
  - (* array *)
    rewrite (deep_template_object D1 (TArr ro0 v)); [|discriminate|reflexivity].
    rewrite (deep_template_object D3 (TArr ro0 v)); [|discriminate|reflexivity].
    rewrite U1, U3. cbn [mapped_keyof].
    rewrite deep_template_object; [|discriminate|reflexivity].
    rewrite U2. cbn [mapped_keyof]. cbn [no_object_union] in Hok.
    now rewrite (IHv Hok), Cr.
  - (* tuple *)
    rewrite (deep_template_object D1 (TTuple ro0 es)); [|discriminate|reflexivity].
    rewrite (deep_template_object D3 (TTuple ro0 es)); [|discriminate|reflexivity].
    rewrite U1, U3. cbn [mapped_keyof].
    rewrite deep_template_object; [|discriminate|reflexivity].
    rewrite U2. cbn [mapped_keyof]. rewrite !mapi_const, map_map, Cr. f_equal.
    apply map_ext_in. intros eo Heo. cbn [fst snd].
    cbn [no_object_union] in Hok. rewrite forallb_forall in Hok.
    rewrite Forall_forall in H. rewrite (H eo Heo (Hok eo Heo)).
    now rewrite Co.
  - (* function *)
    rewrite (deep_template_object D1 (TFun ps v)); [|discriminate|reflexivity].
    rewrite (deep_template_object D3 (TFun ps v)); [|discriminate|reflexivity].
    rewrite U1, U3. cbn [mapped_keyof].
    rewrite (deep_template_object D2 (TObj [])); [|discriminate|reflexivity].
    now rewrite U2.
  - (* Promise *)
    rewrite (deep_template_object D1 (TPromise v)); [|discriminate|reflexivity].
    rewrite (deep_template_object D3 (TPromise v)); [|discriminate|reflexivity].
    rewrite U1, U3. cbn [mapped_keyof].
    rewrite (deep_template_object D2 (TPromise v)); [|discriminate|reflexivity].
    now rewrite U2.
  - (* union, not assignable to object *)
    cbn [no_object_union] in Hok. apply negb_true_iff in Hok.
    rewrite (deep_template_not_object D1 (TUnion alts)); [|discriminate|assumption].
    rewrite (deep_template_not_object D3 (TUnion alts)); [|discriminate|assumption].
    apply deep_template_not_object; [discriminate|assumption].
  - (* intersection *)
    destruct (assignable (TInter v1 v2) TObjectKw) eqn:E.
    + rewrite (deep_template_object D1 (TInter v1 v2)); [|discriminate|assumption].
      rewrite (deep_template_object D3 (TInter v1 v2)); [|discriminate|assumption].
      rewrite U1, U3. cbn [mapped_keyof].
      rewrite (deep_template_object D2 (TObj [])); [|discriminate|reflexivity].
      now rewrite U2.
    + rewrite (deep_template_not_object D1 (TInter v1 v2)); [|discriminate|assumption].
      rewrite (deep_template_not_object D3 (TInter v1 v2)); [|discriminate|assumption].
      apply deep_template_not_object; [discriminate|assumption].
Qed.

Lemma deep_compose (ps : list (string * prop ty)) :
  no_object_union (TObj ps) = true -> D2 (D1 (TObj ps)) = D3 (TObj ps).
Proof.
  intros Hok. pose proof (deep_template_compose (TObj ps) Hok) as H.
  rewrite (deep_template_object D1 (TObj ps)) in H; [|discriminate|reflexivity].
  rewrite (deep_template_object D3 (TObj ps)) in H; [|discriminate|reflexivity].
  rewrite U1 in H |- *. cbn [mapped_keyof] in H |- *.
  rewrite deep_template_object in H; [exact H|discriminate|reflexivity].
Qed.
End deep_compose.

Lemma deep_map_unfold (mro mopt : modifier) (t : ty) :
  deep_map mro mopt t
  = mapped_keyof mro mopt (fun _ v => deep_template (deep_map mro mopt) v) t.
Proof. destruct t; reflexivity. Qed.

(** X17. For every object shape [T] in which the recursion enters no union,
    each of [DeepPartial], [DeepRequired], [DeepReadOnly] and [DeepMutable]
    applied twice is the same as applied once, also where [T] has function
    types (emptied by the first application) and read-only arrays. *)
Theorem Deep_idempotent (ps : list (string * prop ty)) :
  no_object_union (TObj ps) = true ->
  DeepPartial (DeepPartial (TObj ps)) = DeepPartial (TObj ps)
  /\ DeepRequired (DeepRequired (TObj ps)) = DeepRequired (TObj ps)
  /\ DeepReadOnly (DeepReadOnly (TObj ps)) = DeepReadOnly (TObj ps)
  /\ DeepMutable (DeepMutable (TObj ps)) = DeepMutable (TObj ps).
Proof.
  intros Hok. repeat split.
  - apply (deep_compose Keep Add Keep Add Keep Add); auto using DeepPartial_unfold;
      now intros [].
  - apply (deep_compose Keep Remove Keep Remove Keep Remove);
      auto using DeepRequired_unfold; now intros [].
  - apply (deep_compose Add Keep Add Keep Add Keep); auto using DeepReadOnly_unfold;
      now intros [].
  - apply (deep_compose Remove Keep Remove Keep Remove Keep);
      auto using DeepMutable_unfold; now intros [].
Qed.

Lemma Deep_idempotent_witness :
  no_object_union A_mixed = true
  /\ DeepPartial (DeepPartial A_mixed) = DeepPartial A_mixed.
Proof.
  split; [reflexivity|].
  exact (proj1 (Deep_idempotent (props_of A_mixed) eq_refl)).
Defined.

(** X18. For every object shape [T] in which the recursion enters no union,
    the later of two opposite utilities decides:
    [DeepRequired<DeepPartial<T>>] is [DeepRequired<T>],
    [DeepPartial<DeepRequired<T>>] is [DeepPartial<T>],
    [DeepMutable<DeepReadOnly<T>>] is [DeepMutable<T>] and
    [DeepReadOnly<DeepMutable<T>>] is [DeepReadOnly<T>]; the markers that [T]
    had before are lost. *)
Theorem Deep_later_decides (ps : list (string * prop ty)) :
  no_object_union (TObj ps) = true ->
  DeepRequired (DeepPartial (TObj ps)) = DeepRequired (TObj ps)
  /\ DeepPartial (DeepRequired (TObj ps)) = DeepPartial (TObj ps)
  /\ DeepMutable (DeepReadOnly (TObj ps)) = DeepMutable (TObj ps)
  /\ DeepReadOnly (DeepMutable (TObj ps)) = DeepReadOnly (TObj ps).
Proof.
  intros Hok. repeat split.
  - apply (deep_compose Keep Add Keep Remove Keep Remove);
      auto using DeepPartial_unfold, DeepRequired_unfold; now intros [].
  - apply (deep_compose Keep Remove Keep Add Keep Add);
      auto using DeepPartial_unfold, DeepRequired_unfold; now intros [].
  - apply (deep_compose Add Keep Remove Keep Remove Keep);
      auto using DeepReadOnly_unfold, DeepMutable_unfold; now intros [].
  - apply (deep_compose Remove Keep Add Keep Add Keep);
      auto using DeepReadOnly_unfold, DeepMutable_unfold; now intros [].
Qed.

Lemma Deep_later_decides_witness :
  no_object_union A_mixed = true
  /\ DeepMutable (DeepReadOnly A_mixed) = DeepMutable A_mixed.
Proof.
  split; [reflexivity|].
  exact (proj1 (proj2 (proj2 (Deep_later_decides (props_of A_mixed) eq_refl)))).
Defined.

(** X19. For every object shape [T] in which the recursion enters no union, a
    utility on the optional marker and a utility on the read-only marker can
    be applied in either order: [DeepPartial] and [DeepRequired] each commute
    with [DeepReadOnly] and with [DeepMutable]. *)
Theorem Deep_commute (ps : list (string * prop ty)) :
  no_object_union (TObj ps) = true ->
  DeepPartial (DeepReadOnly (TObj ps)) = DeepReadOnly (DeepPartial (TObj ps))
  /\ DeepPartial (DeepMutable (TObj ps)) = DeepMutable (DeepPartial (TObj ps))
  /\ DeepRequired (DeepReadOnly (TObj ps)) = DeepReadOnly (DeepRequired (TObj ps))
  /\ DeepRequired (DeepMutable (TObj ps)) = DeepMutable (DeepRequired (TObj ps)).
Proof.
  intros Hok. repeat split.
  - transitivity (deep_map Add Add (TObj ps)); [|symmetry].
    + apply (deep_compose Add Keep Keep Add Add Add);
        auto using DeepReadOnly_unfold, DeepPartial_unfold, deep_map_unfold;
        now intros [].
    + apply (deep_compose Keep Add Add Keep Add Add);
        auto using DeepReadOnly_unfold, DeepPartial_unfold, deep_map_unfold;
        now intros [].
  - transitivity (deep_map Remove Add (TObj ps)); [|symmetry].
    + apply (deep_compose Remove Keep Keep Add Remove Add);
        auto using DeepMutable_unfold, DeepPartial_unfold, deep_map_unfold;
        now intros [].
    + apply (deep_compose Keep Add Remove Keep Remove Add);
        auto using DeepMutable_unfold, DeepPartial_unfold, deep_map_unfold;
        now intros [].
  - transitivity (deep_map Add Remove (TObj ps)); [|symmetry].
    + apply (deep_compose Add Keep Keep Remove Add Remove);
        auto using DeepReadOnly_unfold, DeepRequired_unfold, deep_map_unfold;
        now intros [].
    + apply (deep_compose Keep Remove Add Keep Add Remove);
        auto using DeepReadOnly_unfold, DeepRequired_unfold, deep_map_unfold;
        now intros [].
  - transitivity (deep_map Remove Remove (TObj ps)); [|symmetry].
    + apply (deep_compose Remove Keep Keep Remove Remove Remove);
        auto using DeepMutable_unfold, DeepRequired_unfold, deep_map_unfold;
        now intros [].
    + apply (deep_compose Keep Remove Remove Keep Remove Remove);
        auto using DeepMutable_unfold, DeepRequired_unfold, deep_map_unfold;
        now intros [].
Qed.

Lemma Deep_commute_witness :
  no_object_union A_mixed = true
  /\ DeepPartial (DeepReadOnly A_mixed) = DeepReadOnly (DeepPartial A_mixed).
Proof.
  split; [reflexivity|].
  exact (proj1 (Deep_commute (props_of A_mixed) eq_refl)).
Defined.

(** ** [Equal] *)








(** X22. [Equal] sees every marker: two shapes with distinct keys that
    declare one key with different optional markers, or with different
    read-only markers, are not equal, whatever else they declare. *)
Theorem Equal_sees_markers (ps qs : list (string * prop ty)) (k : string)
  (p q : prop ty) :
  NoDup (keys qs) ->
  lookup k ps = Some p -> lookup k qs = Some q ->
  optional p <> optional q \/ readonly p <> readonly q ->
  Equal (TObj ps) (TObj qs) = TBoolLit false.
Proof.
  intros Hnd Hp Hq Hdiff. unfold Equal.
  destruct (identical (TObj ps) (TObj qs)) eqn:E; [|reflexivity]. exfalso.
  cbn [identical] in E. apply andb_prop in E. destruct E as [E _].
  apply andb_prop in E. destruct E as [_ E]. rewrite forallb_forall in E.
  specialize (E (k, p) (lookup_In k ps p Hp)). apply existsb_exists in E.
  destruct E as [[k' q'] [Hin Hs]]. cbn [fst snd] in Hs.
  apply andb_prop in Hs. destruct Hs as [Hs _].
  apply andb_prop in Hs. destruct Hs as [Hs Hr].
  apply andb_prop in Hs. destruct Hs as [Hk Ho].
  apply String.eqb_eq in Hk. subst k'.
  pose proof (lookup_nodup qs (k, q') Hnd Hin) as Hq'. cbn [fst snd] in Hq'.
  rewrite Hq in Hq'. injection Hq' as <-.
  apply Bool.eqb_prop in Ho. apply Bool.eqb_prop in Hr. tauto.
Qed.

Lemma Equal_sees_markers_witness :
  NoDup (keys [("a", opt TString)])
  /\ Equal (TObj [("a", req TString)]) (TObj [("a", opt TString)]) = TBoolLit false.
Proof.
  assert (H : NoDup (keys [("a", opt TString)])).
  { simpl. repeat constructor; simpl; intuition discriminate. }
  split; [exact H|].
  apply (Equal_sees_markers [("a", req TString)] [("a", opt TString)] "a"
                            (req TString) (opt TString) H eq_refl eq_refl).
  left. discriminate.
Defined.


(** ** [Promisify] on functions *)

(** X23. [Promisify<T>] is [never] for every function type with two or more
    required parameters, whatever their types and whatever it returns, a
    [Promise] included: the pattern has the single parameter [args: any[]],
    and a function that requires more arguments is not assignable to it.
    (Parameters after the first that are optional or rest parameters do not
    count: the function types of the model have required parameters only.) *)
Theorem Promisify_never_with_two_parameters (a b : ty) (ps : list ty) (r : ty) :
  Promisify (TFun (a :: b :: ps) r) = TNever.
Proof.
  unfold Promisify, distribute. cbn [members map]. unfold cond_infer, match_infer.
  set (u := match infer_resolved (TFun (a :: b :: ps) r) with
            | Some u => u
            | None => TUnknown
            end).
  destruct (assignable (TFun (a :: b :: ps) r) (TFun [TArr false TAny] (TPromise u)))
    eqn:E; [|reflexivity].
  apply assignable_TFun in E. destruct E as [E _]. cbn [params_rel] in E.
  now rewrite andb_false_r in E.
Qed.

(** X24. For every type [x] in normal form, [Promisify] of the function
    without parameter that returns [Promise<x>] is [x]. *)
Theorem Promisify_unwraps (x : ty) :
  normal x -> Promisify (TFun [] (TPromise x)) = x.
Proof.
  intros Hx. unfold Promisify, distribute. cbn [members map].
  unfold cond_infer, match_infer. cbn [infer_resolved payloads].
  assert (E : assignable (TFun [] (TPromise x))
                         (TFun [TArr false TAny] (TPromise (Union [x]))) = true).
  { apply assignable_TFun. split; [reflexivity|].
    rewrite Hx. apply assignable_refl. }
  rewrite E, Union_idempotent. exact Hx.
Qed.

Lemma Promisify_unwraps_witness :
  normal TString /\ Promisify (TFun [] (TPromise TString)) = TString.
Proof.
  split; [reflexivity|]. exact (Promisify_unwraps TString eq_refl).
Defined.

(** ** The markers after a [Deep*] utility *)

Lemma leaf_not_object (t : ty) : leaf t = true -> assignable t TObjectKw = false.
Proof. destruct t; try discriminate; reflexivity. Qed.

Lemma leaf_markers (fo fr : bool -> bool) (t : ty) :
  leaf t = true -> markers_all fo fr t = true.
Proof. destruct t; try discriminate; reflexivity. Qed.

(** A union of primitive and literal types is not assignable to [object]. *)
Lemma leaves_not_object (alts : list ty) :
  negb (Nat.eqb (List.length alts) 0) && forallb leaf alts = true ->
  assignable (TUnion alts) TObjectKw = false.
Proof.
  intros H. apply andb_prop in H. destruct H as [Hn Hl].
  rewrite assignable_union_object.
  destruct alts as [|a alts]; [discriminate|].
  cbn [forallb] in *. apply andb_prop in Hl. destruct Hl as [Ha _].
  now rewrite (leaf_not_object a Ha).
Qed.

Section deep_markers.
Variables (mr mo : modifier) (D : ty -> ty) (fo fr : bool -> bool).
Hypothesis UD : forall t, D t = mapped_keyof mr mo (fun _ v => deep_template D v) t.
Hypothesis Ho : forall b, fo (apply_mod mo b) = true.
Hypothesis Hr : forall b, fr (apply_mod mr b) = true.

Lemma deep_template_markers (v : ty) :
  within_reach v = true -> markers_all fo fr (deep_template D v) = true.
Proof.
  induction v using ty_ind_nested; intros Hok; try discriminate Hok;
    try reflexivity.
  - (* any *)
    unfold deep_template. cbn [cond is_any is_unknown orb]. rewrite UD. reflexivity.
  - (* never *)
    rewrite (deep_template_object D TNever); [|discriminate|reflexivity].
    now rewrite UD.
  - (* object *)
    rewrite (deep_template_object D TObjectKw); [|discriminate|reflexivity].
    now rewrite UD.
  - (* object shape *)
    rewrite (deep_template_object D (TObj ps)); [|discriminate|reflexivity].
    rewrite UD. cbn [mapped_keyof markers_all]. rewrite forallb_map_comp.
    apply forallb_forall. intros kp Hkp. cbn [fst snd ptype optional readonly].
    cbn [within_reach] in Hok. rewrite forallb_forall in Hok.
    rewrite Forall_forall in H. now rewrite Ho, Hr, (H kp Hkp (Hok kp Hkp)).
  - (* array *)
    rewrite (deep_template_object D (TArr ro0 v)); [|discriminate|reflexivity].
    rewrite UD. cbn [mapped_keyof markers_all]. cbn [within_reach] in Hok.
    now rewrite Hr, (IHv Hok).
  - (* tuple *)
    rewrite (deep_template_object D (TTuple ro0 es)); [|discriminate|reflexivity].
    rewrite UD. cbn [mapped_keyof markers_all]. rewrite mapi_const, Hr, forallb_map_comp.
    apply forallb_forall. intros eo Heo. cbn [fst snd].
    cbn [within_reach] in Hok. rewrite forallb_forall in Hok.
    rewrite Forall_forall in H. now rewrite Ho, (H eo Heo (Hok eo Heo)).
  - (* function: its parameters and its result go with it *)
    rewrite (deep_template_object D (TFun ps v)); [|discriminate|reflexivity].
    now rewrite UD.
  - (* union of primitive and literal types *)
    cbn [within_reach] in Hok.
    rewrite (deep_template_not_object D (TUnion alts));
      [|discriminate|now apply leaves_not_object].
    apply andb_prop in Hok. destruct Hok as [_ Hl].
    cbn [markers_all]. apply forallb_forall. intros a Ha.
    rewrite forallb_forall in Hl. now apply leaf_markers, Hl.
Qed.

Lemma deep_markers (ps : list (string * prop ty)) :
  within_reach (TObj ps) = true -> markers_all fo fr (D (TObj ps)) = true.
Proof.
  intros Hok. pose proof (deep_template_markers (TObj ps) Hok) as H.
  rewrite (deep_template_object D (TObj ps)) in H; [exact H|discriminate|reflexivity].
Qed.
End deep_markers.

(** X25. For every object shape [T] whose object shapes, arrays and tuples
    all lie where the recursion reaches them (as property values and element
    types, at any depth; the unions of [T] have primitive and literal
    alternatives only, and [T] has no intersection and no [Promise]): in
    [DeepPartial<T>] every key and every tuple element, at every depth, is
    optional; in [DeepRequired<T>] none is; in [DeepReadOnly<T>] every key
    and every array or tuple is read-only; in [DeepMutable<T>] none is.  The
    check goes through every type of the result, the alternatives of its
    unions included. *)
Theorem Deep_markers_everywhere (ps : list (string * prop ty)) :
  within_reach (TObj ps) = true ->
  markers_all (fun b => b) (fun _ => true) (DeepPartial (TObj ps)) = true
  /\ markers_all negb (fun _ => true) (DeepRequired (TObj ps)) = true
  /\ markers_all (fun _ => true) (fun b => b) (DeepReadOnly (TObj ps)) = true
  /\ markers_all (fun _ => true) negb (DeepMutable (TObj ps)) = true.
Proof.
  intros Hok. repeat split.
  - apply (deep_markers Keep Add DeepPartial); auto using DeepPartial_unfold.
  - apply (deep_markers Keep Remove DeepRequired); auto using DeepRequired_unfold.
  - apply (deep_markers Add Keep DeepReadOnly); auto using DeepReadOnly_unfold.
  - apply (deep_markers Remove Keep DeepMutable); auto using DeepMutable_unfold.
Qed.

Lemma Deep_markers_everywhere_witness :
  within_reach A_mixed = true
  /\ markers_all negb (fun _ => true) (DeepRequired A_mixed) = true.
Proof.
  split; [reflexivity|].
  exact (proj1 (proj2 (Deep_markers_everywhere (props_of A_mixed) eq_refl))).
Defined.
